(** * Caching layer and retry helper of the portfolio site

    A shallow embedding of
    - [fetchWithBackoff] (the backend's retry helper), and
    - the service worker [sw.js]: the [install], [activate] and [fetch]
      listeners with [cacheFirstStrategy] and [networkFirstStrategy],
    followed by the properties of the caching and retrieval policy.

    Conventions.  An [async] function is a function from the outcome of
    the host calls it awaits to its completion value and the list of
    effects it performed, in program order.  Times are milliseconds in
    [Z]; [delay *= 2] is exact on the doubles the callers use.  The
    host's [CacheStorage] is a finite map from store names to stores, a
    store is the list of the requests put into it with their responses,
    in the order of the puts. *)

From Stdlib Require Import ZArith String List Bool Lia.
From stdpp Require Import base option numbers list strings gmap fin_maps.
Import ListNotations.

Local Open Scope string_scope.
Local Open Scope list_scope.
Local Open Scope Z_scope.

(** ** HTTP values shared by both programs *)

Record Response := mkResponse {
  status : Z;
  statusText : string;
  headers : list (string * string);
  body : string
}.

(** A rejection of a promise: the thrown [Error] object. *)
Record JsError := mkError {
  name : string;
  message : string
}.

(** What [await fetch(...)] gives: a response (of any status) or a throw. *)
Inductive FetchOutcome :=
| Resolved (response : Response)
| Rejected (error : JsError).

#[global] Instance Response_eq_dec : EqDecision Response.
Proof. solve_decision. Defined.
#[global] Instance JsError_eq_dec : EqDecision JsError.
Proof. solve_decision. Defined.
#[global] Instance FetchOutcome_eq_dec : EqDecision FetchOutcome.
Proof. solve_decision. Defined.

(** [response.ok]: the status is in the range 200-299. *)
Definition ok (r : Response) : bool :=
  (200 <=? status r) && (status r <=? 299).

(** [String.prototype.includes]: [search] occurs somewhere in [s]. *)
Fixpoint includes (s search : string) : bool :=
  if String.prefix search s then true
  else match s with
       | EmptyString => false
       | String _ s' => includes s' search
       end.

(** * The backoff retry helper *)

Module Backoff.

Inductive LogLine :=
| LogStatusRetry (st : Z) (delay : Z) (attempt retries : nat)
| LogTimeout (delay : Z) (attempt retries : nat)
| LogFailed (attempt : nat) (msg : string).

(** The effects of one call, in program order. *)
Inductive Event :=
| EvFetch (i : nat)
| EvLog (l : LogLine)
| EvSleep (ms : Z).

Inductive Completion :=
| Return (r : Response)
| Throw (e : JsError).

#[global] Instance Completion_eq_dec : EqDecision Completion.
Proof. solve_decision. Defined.

(** [new Error('API call failed after all retries.')] *)
Definition exhausted : JsError :=
  mkError "Error" "API call failed after all retries.".

(** The abort raised by the 30 s timer of an attempt. *)
Definition AbortError : JsError :=
  mkError "AbortError" "This operation was aborted".

Definition log_of_error (e : JsError) (delay : Z) (i retries : nat) : LogLine :=
  if String.eqb (name e) "AbortError"
  then LogTimeout delay (S i) retries
  else LogFailed (S i) (message e).

Section Loop.
(** [net i] is what the attempt made in iteration [i] of the loop
    meets: a response, or a throw (the abort of an attempt that ran
    into its timeout has the name [AbortError]). *)
Variable net : nat -> FetchOutcome.
Variable retries : nat.

(** The [for] loop from iteration [i = retries - remaining] on:
    [remaining] is the loop's variant, and [remaining = 0] is the exit
    [i < retries] failing, which reaches the final [throw]. *)
Fixpoint loop (remaining : nat) (delay : Z) : Completion * list Event :=
  match remaining with
  | O => (Throw exhausted, [])
  | S remaining' =>
      let i := (retries - remaining)%nat in
      match net i with
      | Resolved apiResponse =>
          if ok apiResponse then (Return apiResponse, [EvFetch i])
          else if (status apiResponse =? 503) || (status apiResponse =? 429) then
            let '(c, tr) := loop remaining' (delay * 2) in
            (c, EvFetch i
                  :: EvLog (LogStatusRetry (status apiResponse) delay (S i) retries)
                  :: EvSleep delay :: tr)
          else (Return apiResponse, [EvFetch i])
      | Rejected error =>
          if (i <? retries - 1)%nat then
            let '(c, tr) := loop remaining' (delay * 2) in
            (c, EvFetch i :: EvLog (log_of_error error delay i retries)
                  :: EvSleep delay :: tr)
          else (Throw error, [EvFetch i; EvLog (log_of_error error delay i retries)])
      end
  end.
End Loop.

Definition fetchWithBackoff (net : nat -> FetchOutcome) (retries : nat) (delay : Z)
  : Completion * list Event :=
  loop net retries retries delay.

(** The waits of a run, and the attempts it made. *)
Definition sleeps (tr : list Event) : list Z :=
  omap (fun e => match e with EvSleep d => Some d | _ => None end) tr.

Definition attempts (tr : list Event) : list nat :=
  omap (fun e => match e with EvFetch i => Some i | _ => None end) tr.

(** An outcome after which the loop goes on (when iterations remain):
    a 503 or 429 response, or any throw. *)
Definition retryable (o : FetchOutcome) : bool :=
  match o with
  | Resolved r => negb (ok r) && ((status r =? 503) || (status r =? 429))
  | Rejected _ => true
  end.

(** The transient failures as the specification words them: the
    status says too many requests (429) or temporarily unavailable
    (503), or the attempt timed out. *)
Definition transient_in_spec (o : FetchOutcome) : bool :=
  match o with
  | Resolved r => (status r =? 429) || (status r =? 503)
  | Rejected e => String.eqb (name e) "AbortError"
  end.

Definition plain (st : Z) : Response := mkResponse st "" [] "".

(** Upstream scenarios: [scripted l] answers attempt [i] with status
    [l !! i], and with 200 once the script is over. *)
Definition scripted (l : list Z) (i : nat) : FetchOutcome :=
  Resolved (plain (default 200 (l !! i))).

End Backoff.

(** * The service worker *)

Module ServiceWorker.

Definition CACHE_VERSION : string := "portfolio-v3.0.0".
Definition RUNTIME_CACHE : string := "runtime-v3.0.0".
Definition IMAGE_CACHE : string := "images-v3.0.0".

Definition STATIC_ASSETS : list string :=
  [ "/"; "/index.html"; "/style.css"; "/script.js"; "/manifest.json";
    "/offline.html";
    "/js/modules/animations-gsap.js"; "/js/modules/skill-chart.js";
    "/js/modules/portfolio-api.js"; "/js/modules/portfolio-ui.js";
    "/js/modules/portfolio-forms.js"; "/js/modules/error-handler.js" ].

(** The fields of a [Request] the worker and the host's cache read.
    [url] is the serialized URL, fragment included; [url_origin] is
    [new URL(request.url).origin], as the host's URL parser gives it. *)
Record Request := mkRequest {
  url : string;
  url_origin : string;
  method : string;
  destination : string;
  request_headers : list (string * string)
}.

(** ** Header lists *)

Definition lower_ascii (a : Ascii.ascii) : Ascii.ascii :=
  let n := Ascii.nat_of_ascii a in
  if ((65 <=? n) && (n <=? 90))%nat then Ascii.ascii_of_nat (n + 32) else a.

Fixpoint lower (s : string) : string :=
  match s with
  | EmptyString => EmptyString
  | String a s' => String (lower_ascii a) (lower s')
  end.

(** The combined value of the header [name]: the values of the headers
    of that name, names compared without regard to case, joined by a
    comma and a space; [None] when there is no such header. *)
Definition combined_value (name : string) (hs : list (string * string)) : option string :=
  match snd <$> filter (fun h : string * string => lower h.1 = lower name) hs with
  | [] => None
  | v :: vs => Some (foldl (fun acc x => acc +:+ ", " +:+ x) v vs)
  end.

Fixpoint split_commas (current s : string) : list string :=
  match s with
  | EmptyString => [current]
  | String a s' =>
      if Ascii.eqb a (Ascii.ascii_of_nat 44)
      then current :: split_commas "" s'
      else split_commas (current +:+ String a "") s'
  end.

Fixpoint strip_start (s : string) : string :=
  match s with
  | EmptyString => EmptyString
  | String a s' =>
      if Ascii.eqb a (Ascii.ascii_of_nat 32) || Ascii.eqb a (Ascii.ascii_of_nat 9) then strip_start s' else s
  end.

Definition strip (s : string) : string :=
  String.rev (strip_start (String.rev (strip_start s))).

(** The field values of the [Vary] header of a response (quoted strings
    are not treated apart). *)
Definition vary_fields (response : Response) : list string :=
  match combined_value "Vary" (headers response) with
  | None => []
  | Some v => strip <$> split_commas "" v
  end.

Definition vary_star (response : Response) : bool :=
  existsb (String.eqb "*") (vary_fields response).

(** ** The host's cache interface

    A store is its list of requests and responses.  As the Cache
    interface has it: [open] creates a missing store; a request matches
    a stored pair when the URLs are equal apart from the fragment and,
    for every field of the stored response's [Vary] header, the two
    requests have the same combined value ([*] matches nothing); [match]
    gives the first matching response, and nothing for a request whose
    method is not GET; [put] rejects (a [TypeError] in a promise the
    worker never awaits) a request that is not a GET over http or https
    and a response of status 206 or with [Vary: *], and otherwise
    removes the pairs the request matches and appends the new pair; a
    write through the handle of a store that has been deleted is not
    seen by [caches]. *)
Abbreviation Cache := (list (Request * Response)).
Abbreviation CacheStorage := (gmap string (list (Request * Response))).

Definition caches_open (cacheName : string) (caches : CacheStorage) : CacheStorage :=
  match caches !! cacheName with
  | Some _ => caches
  | None => <[cacheName := []]> caches
  end.

(** The pairs of the store [cacheName]; none when there is no such
    store. *)
Definition stored (cacheName : string) (caches : CacheStorage) : Cache :=
  default [] (caches !! cacheName).

Fixpoint strip_fragment (u : string) : string :=
  match u with
  | EmptyString => EmptyString
  | String a u' => if Ascii.eqb a (Ascii.ascii_of_nat 35) then EmptyString else String a (strip_fragment u')
  end.

Definition matches_cached (requestQuery : Request) (cached : Request * Response) : bool :=
  String.eqb (strip_fragment (url requestQuery)) (strip_fragment (url cached.1))
  && forallb (fun fieldValue =>
                negb (String.eqb fieldValue "*")
                && bool_decide (combined_value fieldValue (request_headers cached.1)
                                = combined_value fieldValue (request_headers requestQuery)))
       (vary_fields cached.2).

Definition cache_match (cacheName : string) (request : Request) (caches : CacheStorage)
  : option Response :=
  if String.eqb (method request) "GET"
  then snd <$> head (filter (fun cached => matches_cached request cached = true)
                       (stored cacheName caches))
  else None.

Definition http_scheme (u : string) : bool :=
  String.prefix "http://" u || String.prefix "https://" u.

(** Whether [put] accepts the pair. *)
Definition storable (request : Request) (response : Response) : bool :=
  String.eqb (method request) "GET" && http_scheme (url request)
  && negb (status response =? 206) && negb (vary_star response).

(** The store after a put: the pairs the request matches are removed,
    the new pair is appended. *)
Definition replaced (request : Request) (response : Response) (store : Cache) : Cache :=
  filter (fun cached => matches_cached request cached = false) store
  ++ [(request, response)].

Definition cache_put (cacheName : string) (request : Request) (response : Response)
    (caches : CacheStorage) : CacheStorage :=
  if storable request response
  then alter (replaced request response) cacheName caches
  else caches.

Definition caches_keys (caches : CacheStorage) : list string :=
  (map_to_list caches).*1.

(** [cache.addAll(requests)].  Every request must be a GET over http or
    https; each is fetched; when one fetch throws or answers with a
    status that is not ok, with 206 or with [Vary: *], the promise
    rejects and nothing is written.  The pairs are then put one after
    the other; a request that matches a pair put before it in the same
    call makes the call reject, and the store stays as it was. *)
Definition cacheable (o : FetchOutcome) : option Response :=
  match o with
  | Resolved r =>
      if ok r && negb (status r =? 206) && negb (vary_star r) then Some r else None
  | Rejected _ => None
  end.

Fixpoint batch_put (operations added store : Cache) : option Cache :=
  match operations with
  | [] => Some store
  | (request, response) :: rest =>
      if existsb (matches_cached request) added then None
      else batch_put rest (added ++ [(request, response)])
             (replaced request response store)
  end.

(** The stored pairs that none of the requests of a batch matches. *)
Definition untouched (operations : Cache) (cached : Request * Response) : Prop :=
  Forall (fun operation : Request * Response =>
            matches_cached operation.1 cached = false) operations.

Definition cache_addAll (cacheName : string) (requests : list Request)
    (net : string -> FetchOutcome) (caches : CacheStorage) : option CacheStorage :=
  if forallb (fun r => String.eqb (method r) "GET" && http_scheme (url r)) requests
  then
    responses ← mapM (fun r => cacheable (net (url r))) requests;
    store ← batch_put (zip requests responses) [] (stored cacheName caches);
    Some (alter (fun _ : Cache => store) cacheName caches)
  else None.

(** The keys of a store as the specification has them, the URLs of its
    requests without their fragments; and a store none of whose
    responses has a [Vary] header. *)
Definition store_keys (store : Cache) : list string :=
  (fun cached : Request * Response => strip_fragment (url cached.1)) <$> store.

Definition vary_free (store : Cache) : Prop :=
  Forall (fun cached : Request * Response => vary_fields cached.2 = []) store.

(** ** Effects of a strategy, in program order *)
Inductive Step :=
| StOpen (cacheName : string)
| StMatch (cacheName key : string)
| StFetch (u : string)
| StPut (cacheName key : string)
| StNewResponse (st : Z).

(** The [then] handler left behind by [cacheFirstStrategy] on a hit: it
    runs when the fetch started before the [return] settles. *)
Record Refresh := mkRefresh {
  refresh_request : Request;
  refresh_cache : string
}.

Record Handled := mkHandled {
  served : Response;
  caches_after : CacheStorage;
  steps : list Step;
  pending : option Refresh
}.

Definition offline_content_unavailable : Response :=
  mkResponse 503 "Service Unavailable" [("Content-Type", "text/plain")]
    "Offline - Content not available".

Definition offline_no_cached_version : Response :=
  mkResponse 503 "Service Unavailable" [("Content-Type", "text/plain")]
    "Offline - No cached version available".

Inductive Strategy :=
| NetworkFirst
| CacheFirst (cacheName : string).

Inductive Dispatch :=
| NotIntercepted
| RespondWith (s : Strategy).

(** The store a strategy works on. *)
Definition target_store (d : Dispatch) : option string :=
  match d with
  | NotIntercepted => None
  | RespondWith NetworkFirst => Some RUNTIME_CACHE
  | RespondWith (CacheFirst cacheName) => Some cacheName
  end.

Inductive Settlement := Fulfilled | RejectedWith (e : JsError).
Inductive WorkerState := Installed | Redundant.

Record InstallRun := mkInstallRun {
  waitUntil : Settlement;
  skipWaiting : bool;
  console_error : option JsError;
  install_caches : CacheStorage
}.

Section Worker.
(** [location.origin] of the worker. *)
Variable location_origin : string.

(** A URL given as a path is resolved against the worker's location. *)
Definition absolute (path : string) : string := location_origin +:+ path.

(** [new Request(path)]: a GET without headers of its own. *)
Definition request_of (path : string) : Request :=
  mkRequest (absolute path) location_origin "GET" "" [].

(** *** The [install] listener *)

(** The reason [addAll] rejects with: a [TypeError] for a request or an
    answer it refuses, an [InvalidStateError] for a request that matches
    a pair put before it in the same call. *)
Definition addAll_failed : JsError := mkError "TypeError" "Failed to fetch".

Definition batch_refused : JsError :=
  mkError "InvalidStateError" "Failed to execute 'addAll' on 'Cache'".

Definition addAll_reason (requests : list Request) (net : string -> FetchOutcome)
  : JsError :=
  if forallb (fun r => String.eqb (method r) "GET" && http_scheme (url r)) requests
  then match mapM (fun r => cacheable (net (url r))) requests with
       | Some _ => batch_refused
       | None => addAll_failed
       end
  else addAll_failed.

Definition install (net : string -> FetchOutcome) (caches : CacheStorage) : InstallRun :=
  let opened := caches_open CACHE_VERSION caches in
  match cache_addAll CACHE_VERSION (request_of <$> STATIC_ASSETS) net opened with
  | Some populated =>
      (* .then(() => self.skipWaiting()) *)
      mkInstallRun Fulfilled true None populated
  | None =>
      (* .catch((error) => { console.error(...) }): the handler returns
         normally, so the promise given to waitUntil is fulfilled *)
      mkInstallRun Fulfilled false
        (Some (addAll_reason (request_of <$> STATIC_ASSETS) net)) opened
  end.

(** The host's rule for the promise given to [event.waitUntil] of the
    install event: a rejection makes the worker redundant, otherwise
    it is installed and activates once it may take over. *)
Definition after_install (p : Settlement) : WorkerState :=
  match p with
  | Fulfilled => Installed
  | RejectedWith _ => Redundant
  end.

(** *** The [activate] listener *)
Definition currentCaches : list string := [CACHE_VERSION; RUNTIME_CACHE; IMAGE_CACHE].

Definition activate (caches : CacheStorage) : CacheStorage :=
  foldl (fun acc cacheName =>
           if negb (existsb (String.eqb cacheName) currentCaches)
           then delete cacheName acc
           else acc)
        caches (caches_keys caches).

(** *** The [fetch] listener *)
Definition fetch_listener (request : Request) : Dispatch :=
  if negb (String.eqb (url_origin request) location_origin) then NotIntercepted
  else if includes (url request) "/api/" then RespondWith NetworkFirst
  else if String.eqb (destination request) "image" then RespondWith (CacheFirst IMAGE_CACHE)
  else if existsb (fun asset => includes (url request) asset) STATIC_ASSETS
       then RespondWith (CacheFirst CACHE_VERSION)
  else RespondWith NetworkFirst.

(** *** [cacheFirstStrategy]

    [net] is how the one [fetch(request)] of the call settles.  On a
    hit the function returns before that, and leaves the handler
    [pending]. *)
Definition cacheFirstStrategy (request : Request) (cacheName : string)
    (net : FetchOutcome) (caches : CacheStorage) : Handled :=
  let opened := caches_open cacheName caches in
  let before := [StOpen cacheName; StMatch cacheName (url request)] in
  match cache_match cacheName request opened with
  | Some cachedResponse =>
      mkHandled cachedResponse opened (before ++ [StFetch (url request)])
                (Some (mkRefresh request cacheName))
  | None =>
      match net with
      | Resolved response =>
          if status response =? 200
          then mkHandled response (cache_put cacheName request response opened)
                 (before ++ [StFetch (url request); StPut cacheName (url request)]) None
          else mkHandled response opened (before ++ [StFetch (url request)]) None
      | Rejected _ =>
          mkHandled offline_content_unavailable opened
            (before ++ [StFetch (url request); StNewResponse 503]) None
      end
  end.

(** The background refresh, once its fetch has settled. *)
Definition refresh (r : Refresh) (net : FetchOutcome) (caches : CacheStorage)
  : CacheStorage :=
  match net with
  | Resolved response =>
      if status response =? 200
      then cache_put (refresh_cache r) (refresh_request r) response caches
      else caches
  | Rejected _ => caches
  end.

(** *** [networkFirstStrategy] *)
Definition offline_request : Request := request_of "/offline.html".

Definition networkFirstStrategy (request : Request) (net : FetchOutcome)
    (caches : CacheStorage) : Handled :=
  let opened := caches_open RUNTIME_CACHE caches in
  let before := [StOpen RUNTIME_CACHE; StFetch (url request)] in
  match net with
  | Resolved response =>
      if status response =? 200
      then mkHandled response (cache_put RUNTIME_CACHE request response opened)
             (before ++ [StPut RUNTIME_CACHE (url request)]) None
      else mkHandled response opened before None
  | Rejected _ =>
      let looked := before ++ [StMatch RUNTIME_CACHE (url request)] in
      match cache_match RUNTIME_CACHE request opened with
      | Some cachedResponse => mkHandled cachedResponse opened looked None
      | None =>
          let generic looked :=
            mkHandled offline_no_cached_version opened
              (looked ++ [StNewResponse 503]) None in
          if String.eqb (destination request) "document" then
            let looked' := looked ++ [StMatch RUNTIME_CACHE (url offline_request)] in
            match cache_match RUNTIME_CACHE offline_request opened with
            | Some offlinePage => mkHandled offlinePage opened looked' None
            | None => generic looked'
            end
          else generic looked
      end
  end.

(** *** One fetch event, to the end

    The response the page gets ([None] when the worker does not
    intercept) and the stores once the event's one network call has
    settled and every handler has run. *)
Definition handle_fetch (request : Request) (net : FetchOutcome)
    (caches : CacheStorage) : option Response * CacheStorage :=
  match fetch_listener request with
  | NotIntercepted => (None, caches)
  | RespondWith NetworkFirst =>
      let h := networkFirstStrategy request net caches in
      (Some (served h), caches_after h)
  | RespondWith (CacheFirst cacheName) =>
      let h := cacheFirstStrategy request cacheName net caches in
      (Some (served h),
       match pending h with
       | Some r => refresh r net (caches_after h)
       | None => caches_after h
       end)
  end.
End Worker.

End ServiceWorker.

(** * Scenarios used in the examples *)

Module Scenarios.
Import Backoff ServiceWorker.

(** A connection the upstream host refuses: a throw that is no timeout. *)
Definition refused : JsError := mkError "TypeError" "fetch failed".

Definition example_origin : string := "https://example.com".

Definition page (u : string) : Response :=
  mkResponse 200 "OK" [("Content-Type", "text/html")] ("content of " +:+ u).

(** A network on which everything but the offline page can be fetched. *)
Definition offline_page_unreachable (u : string) : FetchOutcome :=
  if String.eqb u "https://example.com/offline.html"
  then Rejected addAll_failed
  else Resolved (page u).

Definition home : Request := request_of example_origin "/".

(** The stores of a previous deployment next to the current ones. *)
Definition superseded : CacheStorage :=
  <["portfolio-v2.0.0" := [(home, page "old")]]>
  (<["runtime-v2.0.0" := []]>
  (<["images-v2.0.0" := []]>
  (<[CACHE_VERSION := [(home, page "new")]]>
  (<[RUNTIME_CACHE := []]>
  (<[IMAGE_CACHE := []]> ∅))))).

Definition about_page : Request :=
  mkRequest "https://example.com/about.html" example_origin "GET" "document" [].

(** The download of the resume, a navigation under [/api/]. *)
Definition resume : Request :=
  mkRequest "https://example.com/api/resume" example_origin "GET" "document" [].

Definition logo : Request :=
  mkRequest "https://example.com/img/logo.png" example_origin "GET" "image" [].

Definition with_logo : CacheStorage :=
  <[IMAGE_CACHE := [(logo, page "old logo")]]> ∅.

Definition server_error : Response :=
  mkResponse 500 "Internal Server Error" [] "oops".

Definition online (u : string) : FetchOutcome := Resolved (page u).

Definition contact_form : Request :=
  mkRequest "https://example.com/api/send" example_origin "POST" "" [].

(** The portfolio data asked for as JSON and as text, and answers that
    depend on the [Accept] header of the request. *)
Definition data_as (accept : string) : Request :=
  mkRequest "https://example.com/api/portfolio-data" example_origin "GET" ""
    [("Accept", accept)].

Definition negotiated (text : string) : Response :=
  mkResponse 200 "OK" [("Vary", "Accept")] text.

(** An answer no cache may reuse. *)
Definition unique_answer : Response :=
  mkResponse 200 "OK" [("Vary", "*")] "for you only".

End Scenarios.

(** * Input validation of the backend *)

Module Validation.

(** A JavaScript string is the list of its UTF-16 code units. *)
Abbreviation jsstring := (list Z).

(** An ASCII literal of the source. *)
Definition lit (s : string) : jsstring :=
  (fun a => Z.of_N (Ascii.N_of_ascii a)) <$> String.list_ascii_of_string s.

(** A value of a JSON body, as far as the handlers look at it: a string,
    or anything else with its truthiness ([undefined], [null], [0] and
    [false] are falsy; objects, arrays and other numbers are truthy). *)
Inductive JsValue :=
| JString (s : jsstring)
| JOther (truthy : bool).

#[global] Instance JsValue_eq_dec : EqDecision JsValue.
Proof. solve_decision. Defined.

Definition truthy (v : JsValue) : bool :=
  match v with
  | JString [] => false
  | JString (_ :: _) => true
  | JOther b => b
  end.

(** White space and line terminators of the language: what [trim]
    strips and what [\s] matches. *)
Definition isWhiteSpace (c : Z) : bool :=
  existsb (Z.eqb c)
    [9; 10; 11; 12; 13; 32; 160; 5760; 8232; 8233; 8239; 8287; 12288; 65279]
  || ((8192 <=? c) && (c <=? 8202)).

Fixpoint trimStart (s : jsstring) : jsstring :=
  match s with
  | [] => []
  | c :: s' => if isWhiteSpace c then trimStart s' else s
  end.

Definition trimEnd (s : jsstring) : jsstring := rev (trimStart (rev s)).

Definition trim (s : jsstring) : jsstring := trimEnd (trimStart s).

(** [s.replace(/c/g, by)] for a pattern of one code unit. *)
Definition replaceAll (c : Z) (by_ : jsstring) (s : jsstring) : jsstring :=
  flat_map (fun x => if x =? c then by_ else [x]) s.

(** A string that does not start, or end, with white space. *)
Definition clean_start (s : jsstring) : Prop :=
  match s with
  | [] => True
  | c :: _ => isWhiteSpace c = false
  end.

Definition clean_end (s : jsstring) : Prop := clean_start (rev s).

(** What the chain of [replace] calls puts for one code unit. *)
Definition escape_unit (c : Z) : jsstring :=
  if c =? 60 then lit "&lt;"
  else if c =? 62 then lit "&gt;"
  else if c =? 34 then lit "&quot;"
  else if c =? 39 then lit "&#x27;"
  else if c =? 47 then lit "&#x2F;"
  else [c].

(** The chain of [replace] calls of [sanitizeInput]. *)
Definition escape (input : jsstring) : jsstring :=
  replaceAll 47 (lit "&#x2F;")
    (replaceAll 39 (lit "&#x27;")
      (replaceAll 34 (lit "&quot;")
        (replaceAll 62 (lit "&gt;")
          (replaceAll 60 (lit "&lt;") input)))).

Definition sanitizeInput (input : JsValue) : jsstring :=
  match input with
  | JOther _ => []
  | JString input => trim (escape input)
  end.

(** The code units the chain replaces: [<], [>], the double quote, the
    apostrophe and [/]. *)
Definition special (c : Z) : bool :=
  existsb (Z.eqb c) [60; 62; 34; 39; 47].

(** ** Regular expressions, matched as a whole ([^...$]) *)
Inductive regex :=
| Never
| Empty
| Class (p : Z -> bool)
| Seq (r1 r2 : regex)
| Alt (r1 r2 : regex)
| Star (r : regex).

(** [r+] *)
Definition Plus (r : regex) : regex := Seq r (Star r).

Fixpoint nullable (r : regex) : bool :=
  match r with
  | Never => false
  | Empty => true
  | Class _ => false
  | Seq r1 r2 => nullable r1 && nullable r2
  | Alt r1 r2 => nullable r1 || nullable r2
  | Star _ => true
  end.

Fixpoint derive (c : Z) (r : regex) : regex :=
  match r with
  | Never => Never
  | Empty => Never
  | Class p => if p c then Empty else Never
  | Seq r1 r2 =>
      if nullable r1
      then Alt (Seq (derive c r1) r2) (derive c r2)
      else Seq (derive c r1) r2
  | Alt r1 r2 => Alt (derive c r1) (derive c r2)
  | Star r' => Seq (derive c r') (Star r')
  end.

Fixpoint matches (r : regex) (s : jsstring) : bool :=
  match s with
  | [] => nullable r
  | c :: s' => matches (derive c r) s'
  end.

(** [[^\s@]] *)
Definition notSpaceAt (c : Z) : bool := negb (isWhiteSpace c) && negb (c =? 64).

(** [/^[^\s@]+@[^\s@]+\.[^\s@]+$/] *)
Definition emailRegex : regex :=
  Seq (Plus (Class notSpaceAt))
    (Seq (Class (Z.eqb 64))
      (Seq (Plus (Class notSpaceAt))
        (Seq (Class (Z.eqb 46))
          (Plus (Class notSpaceAt))))).

Definition isValidEmail (email : jsstring) : bool := matches emailRegex email.

(** The strings a regular expression stands for. *)
Inductive denotes : regex -> jsstring -> Prop :=
| denotes_Empty : denotes Empty []
| denotes_Class p c : p c = true -> denotes (Class p) [c]
| denotes_Seq r1 r2 s1 s2 :
    denotes r1 s1 -> denotes r2 s2 -> denotes (Seq r1 r2) (s1 ++ s2)
| denotes_Alt_l r1 r2 s : denotes r1 s -> denotes (Alt r1 r2) s
| denotes_Alt_r r1 r2 s : denotes r2 s -> denotes (Alt r1 r2) s
| denotes_Star_nil r : denotes (Star r) []
| denotes_Star_app r s1 s2 :
    denotes r s1 -> denotes (Star r) s2 -> denotes (Star r) (s1 ++ s2).

(** How often a code unit occurs. *)
Definition occurrences (c : Z) (s : jsstring) : nat :=
  length (filter (fun x => x = c) s).

Definition validateMessage (message : JsValue) (maxLength : Z) : bool :=
  if negb (truthy message) then false
  else match message with
       | JOther _ => false
       | JString message =>
           let trimmed := trim message in
           (0 <? Z.of_nat (length trimmed)) && (Z.of_nat (length trimmed) <=? maxLength)
       end.

End Validation.

(** * The routes of the backend *)

Module Routes.
Import Validation Backoff.

(** The text of a JSON answer: one of the fixed messages of the source,
    or the text taken from the upstream answer. *)
Inductive ReplyText :=
| Fixed (s : string)
| FromUpstream (v : JsValue).

Record Reply := mkReply {
  code : Z;
  success : bool;
  reply_message : ReplyText
}.

(** The part of [process.env] the routes read; a variable that is not
    set is [None]. *)
Record Env := mkEnv {
  VERIFIED_SENDER_EMAIL : option jsstring;
  ADMIN_RECIPIENT_EMAILS : option jsstring;
  GEMINI_API_KEY : option jsstring
}.

Definition is_set (v : option jsstring) : bool :=
  match v with
  | Some (_ :: _) => true
  | _ => false
  end.

(** The time a call of the retry helper spends waiting. *)
Definition total_wait (tr : list Event) : Z := foldr Z.add 0 (sleeps tr).

(** ** [POST /api/send] *)

Record SendBody := mkSendBody {
  body_name : JsValue;
  body_email : JsValue;
  body_message : JsValue
}.

(** Which template a mail is made of, and the arguments it is filled
    with; subject, html and text are fixed texts around them. *)
Inductive MailTemplate :=
| AdminNotification (name email message : jsstring)
| AutoReply (name : jsstring).

Record Mail := mkMail {
  mail_from_name : jsstring;
  mail_from_address : jsstring;
  mail_to : jsstring;
  mail_replyTo : option jsstring;
  mail_content : MailTemplate
}.

Definition fill_out_all_fields : Reply :=
  mkReply 400 false (Fixed "Please fill out all fields.").
Definition name_length : Reply :=
  mkReply 400 false (Fixed "Name must be between 2 and 100 characters.").
Definition invalid_email : Reply :=
  mkReply 400 false (Fixed "Please provide a valid email address.").
Definition message_length : Reply :=
  mkReply 400 false (Fixed "Message must be between 1 and 3000 characters.").
Definition configuration_error : Reply :=
  mkReply 500 false (Fixed "Server configuration error. Please contact the administrator.").
Definition message_sent : Reply :=
  mkReply 200 true (Fixed "Message sent successfully! I'll get back to you soon.").
Definition send_error : Reply :=
  mkReply 500 false
    (Fixed "An error occurred. Please try again or contact me directly at sugampokharel28@gmail.com.").

Section Send.
(** [String.prototype.toLowerCase], and whether [transporter.sendMail]
    resolves for a mail. *)
Variable toLowerCase : jsstring -> jsstring.
Variable sendMail : Mail -> bool.

(** The answer, and the mails handed to the transporter. *)
Definition send_route (body : SendBody) (env : Env) : Reply * list Mail :=
  let name := body_name body in
  let email := body_email body in
  let message := body_message body in
  if negb (truthy name) || negb (truthy email) || negb (truthy message)
  then (fill_out_all_fields, [])
  else
    let sanitizedName := sanitizeInput name in
    match email with
    | JOther _ =>
        (* email.trim is not a function: the TypeError reaches the catch *)
        (send_error, [])
    | JString email =>
        let sanitizedEmail := toLowerCase (trim email) in
        let sanitizedMessage := sanitizeInput message in
        if (Z.of_nat (length sanitizedName) <? 2) || (100 <? Z.of_nat (length sanitizedName))
        then (name_length, [])
        else if negb (isValidEmail sanitizedEmail) then (invalid_email, [])
        else if negb (validateMessage (JString sanitizedMessage) 3000)
        then (message_length, [])
        else if negb (is_set (VERIFIED_SENDER_EMAIL env))
                || negb (is_set (ADMIN_RECIPIENT_EMAILS env))
        then (configuration_error, [])
        else
          let sender := default [] (VERIFIED_SENDER_EMAIL env) in
          let adminMailOptions :=
            mkMail sanitizedName sender (default [] (ADMIN_RECIPIENT_EMAILS env))
              (Some sanitizedEmail)
              (AdminNotification sanitizedName sanitizedEmail sanitizedMessage) in
          let userAutoReplyOptions :=
            mkMail (lit "Sugam Pokharel") sender sanitizedEmail None
              (AutoReply sanitizedName) in
          let mails := [adminMailOptions; userAutoReplyOptions] in
          if forallb sendMail mails then (message_sent, mails) else (send_error, mails)
    end.
End Send.

(** ** [POST /api/chat] *)

Inductive HistoryItem :=
| HNullish
| HItem (role content : JsValue).

Inductive History :=
| HistUndefined
| HistArray (l : list HistoryItem)
| HistOther.

Inductive Role := RoleModel | RoleUser.

Record Content := mkContent {
  role : Role;
  text : JsValue
}.

(** What the route reads in the parsed body of the upstream answer:
    whether [promptFeedback.blockReason] is truthy, and
    [candidates[0].content.parts[0].text] ([JOther false] when a link of
    that chain is missing). *)
Record GeminiResult := mkGeminiResult {
  blockReason : bool;
  candidate_text : JsValue
}.

Definition provide_valid_message : Reply :=
  mkReply 400 false (Fixed "Please provide a valid message.").
Definition cannot_respond : Reply :=
  mkReply 400 false (Fixed "I cannot respond to that. Please ask about Sugam's portfolio.").
Definition fallbackResponse : Reply :=
  mkReply 500 false
    (Fixed "I apologize, but I'm currently unable to process your request. Please email Sugam directly at sugampokharel28@gmail.com.").

Record ChatRun := mkChatRun {
  chat_reply : Reply;
  chat_contents : option (list Content);
  chat_events : list Event
}.

(** [history.map(msg => ...)], then the push of the user's message;
    [None] when reading [msg.role] throws. *)
Definition build_contents (l : list HistoryItem) (trimmedMessage : jsstring)
  : option (list Content) :=
  contents ← mapM (fun msg =>
                     match msg with
                     | HNullish => None
                     | HItem r c =>
                         Some (mkContent
                                 (match r with
                                  | JString r' =>
                                      if bool_decide (r' = lit "bot")
                                      then RoleModel else RoleUser
                                  | JOther _ => RoleUser
                                  end) c)
                     end) l;
  Some (contents ++ [mkContent RoleUser (JString trimmedMessage)]).

Section Chat.
(** [net] answers the attempts of the upstream call; [parse] is
    [apiResponse.json()] followed by the reads of the route, [None] when
    one of them throws. *)
Variable net : nat -> FetchOutcome.
Variable parse : string -> option GeminiResult.

Definition chat_route (message : JsValue) (history : History) (env : Env) : ChatRun :=
  match message with
  | JOther _ => mkChatRun provide_valid_message None []
  | JString m =>
      if negb (truthy message) || (length (trim m) =? 0)%nat
      then mkChatRun provide_valid_message None []
      else
        let trimmedMessage := sanitizeInput (JString (trim m)) in
        if negb (is_set (GEMINI_API_KEY env)) then mkChatRun fallbackResponse None []
        else
          let items :=
            match history with
            | HistUndefined => Some []
            | HistArray l => Some l
            | HistOther => None
            end in
          match items ≫= fun l => build_contents l trimmedMessage with
          | None => mkChatRun fallbackResponse None []
          | Some contents =>
              let '(completion, events) := fetchWithBackoff net 3 1000 in
              let reply :=
                match completion with
                | Throw _ => fallbackResponse
                | Return apiResponse =>
                    if negb (ok apiResponse) then fallbackResponse
                    else match parse (body apiResponse) with
                         | None => fallbackResponse
                         | Some result =>
                             if blockReason result then cannot_respond
                             else if truthy (candidate_text result)
                             then mkReply 200 true (FromUpstream (candidate_text result))
                             else fallbackResponse
                         end
                end in
              mkChatRun reply (Some contents) events
          end
  end.
End Chat.

(** ** The catch-all route and the start of the server *)

(** [app.get('*')]: whether [index.html] is sent for the path. *)
Definition serves_index (path : string) : bool := negb (String.prefix "/api" path).

(** [parseInt(process.env.PORT) || 4000]; [None] is [NaN]. *)
Definition DEFAULT_PORT (parsed : option Z) : Z :=
  match parsed with
  | Some 0 | None => 4000
  | Some p => p
  end.

(** What [app.listen(port)] meets for a port in range. *)
Inductive ListenEvent :=
| ListenOk
| EADDRINUSE
| OtherListenError.

Inductive Startup :=
| Listening (port : Z)
| Exit1
| BadPort (port : Z).

(** [startServer], with the ports left below 65536 as the variant:
    [listen] throws for a port outside 0..65535, which nothing catches. *)
Fixpoint startServer_from (listen : Z -> ListenEvent) (left : nat) (port : Z) : Startup :=
  match left with
  | O => BadPort port
  | S left' =>
      if port <? 0 then BadPort port
      else match listen port with
           | ListenOk => Listening port
           | EADDRINUSE => startServer_from listen left' (port + 1)
           | OtherListenError => Exit1
           end
  end.

Definition startServer (listen : Z -> ListenEvent) (port : Z) : Startup :=
  startServer_from listen (Z.to_nat (65536 - port)) port.

End Routes.

(** * Background sync of the service worker *)

Module BackgroundSync.

(** A record of the [submissions] object store; [submission_id] is its key, the [id] of the source. *)
Record Submission := mkSubmission {
  submission_id : Z;
  submission_url : string;
  submission_data : string
}.

Inductive SyncEvent :=
| SyPost (s : Submission)
| SyDelete (key : Z)
| SyLogSynced (key : Z)
| SyLogFailed.

Section Sync.
(** How the POST of a record settles, and whether the delete request
    for a key succeeds. *)
Variable net : Submission -> FetchOutcome.
Variable delete_ok : Z -> bool.

(** [store.delete(id)] *)
Definition removePendingSubmission (key : Z) (db : list Submission) : list Submission :=
  filter (fun s => submission_id s ≠ key) db.

(** The [for ... of] loop over the records read by [getAll]. *)
Fixpoint sync_loop (submissions : list Submission) (db : list Submission)
  : list Submission * list SyncEvent :=
  match submissions with
  | [] => (db, [])
  | submission :: rest =>
      match net submission with
      | Resolved response =>
          if ok response then
            if delete_ok (submission_id submission) then
              let '(db', tr) := sync_loop rest (removePendingSubmission (submission_id submission) db) in
              (db', SyPost submission :: SyDelete (submission_id submission)
                      :: SyLogSynced (submission_id submission) :: tr)
            else
              let '(db', tr) := sync_loop rest db in
              (db', SyPost submission :: SyDelete (submission_id submission) :: SyLogFailed :: tr)
          else
            let '(db', tr) := sync_loop rest db in
            (db', SyPost submission :: tr)
      | Rejected _ =>
          let '(db', tr) := sync_loop rest db in
          (db', SyPost submission :: SyLogFailed :: tr)
      end
  end.

(** The store is given as [getAll] lists it, in key order; the run
    starts once the database has been opened and read. *)
Definition syncFormSubmissions (db : list Submission) : list Submission * list SyncEvent :=
  sync_loop db db.

(** The [sync] listener. *)
Definition sync_listener (tag : string) (db : list Submission)
  : list Submission * list SyncEvent :=
  if String.eqb tag "sync-form-submission" then syncFormSubmissions db else (db, []).

(** A record leaves the store when its POST is answered ok and its
    delete succeeds. *)
Definition delivered (s : Submission) : bool :=
  match net s with
  | Resolved response => ok response && delete_ok (submission_id s)
  | Rejected _ => false
  end.

Definition posts (tr : list SyncEvent) : list Submission :=
  omap (fun e => match e with SyPost s => Some s | _ => None end) tr.
End Sync.

End BackgroundSync.

(** * Scenarios of the backend and of the background sync *)

Module BackendScenarios.
Import Validation Routes BackgroundSync Backoff.

Definition configured : Env :=
  mkEnv (Some (lit "noreply@example.com")) (Some (lit "admin@example.com"))
    (Some (lit "key")).

Definition inquiry : SendBody :=
  mkSendBody (JString (lit "O'Neil")) (JString (lit " o'neil@example.com "))
    (JString (lit "Is <b>this</b> ok?")).

Definition answer : GeminiResult := mkGeminiResult false (JString (lit "Yes."))  .


(** Ports 4000 and 4001 are taken. *)
Definition two_taken (port : Z) : ListenEvent :=
  if port <? 4002 then EADDRINUSE else ListenOk.

Definition queue : list Submission :=
  [mkSubmission 1 "/api/send" "first"; mkSubmission 2 "/api/send" "second";
   mkSubmission 3 "/api/send" "third"].

(** The second record is refused by the server, the third meets no
    network. *)
Definition flaky (s : Submission) : FetchOutcome :=
  if submission_id s =? 1 then Resolved (plain 200)
  else if submission_id s =? 2 then Resolved (plain 400)
  else Rejected (mkError "TypeError" "Failed to fetch").

End BackendScenarios.

(** * Properties of the backoff retry helper *)

Module BackoffProps.
Import Backoff Scenarios.

Ltac loop_cases net i :=
  destruct (net i) as [apiResponse | error]; simpl;
  [ destruct (ok apiResponse) eqn:Hok; simpl;
    [ | destruct ((status apiResponse =? 503) || (status apiResponse =? 429)) eqn:Hst;
        simpl ]
  | destruct (i <? _)%nat eqn:Hlast; simpl ].

Section Shape.
Variable net : nat -> FetchOutcome.
Variable retries : nat.

(** The waits double, starting from the delay the loop is entered with. *)
Lemma loop_sleeps remaining : forall delay n d,
  sleeps (loop net retries remaining delay).2 !! n = Some d ->
  d = delay * 2 ^ Z.of_nat n.
Proof.
  induction remaining as [|remaining IH]; intros delay n d; [done|].
  cbn [loop]. set (i := (retries - S remaining)%nat).
  loop_cases net i; try done.
  all: destruct (loop net retries remaining (delay * 2)) as [c tr] eqn:E;
    specialize (IH (delay * 2)); rewrite E in IH; cbn;
    destruct n as [|n]; cbn; intros H;
    [ injection H as <-; lia
    | apply IH in H; rewrite H, Nat2Z.inj_succ, Z.pow_succ_r by lia; lia ].
Qed.

(** Iteration [k] is entered (its attempt is made) exactly when it is
    in range and every earlier attempt of this run was retryable. *)
Lemma loop_attempts remaining : forall delay k,
  (remaining <= retries)%nat ->
  k ∈ attempts (loop net retries remaining delay).2 <->
  (retries - remaining <= k < retries)%nat /\
  forall j, (retries - remaining <= j < k)%nat -> retryable (net j) = true.
Proof.
  induction remaining as [|remaining IH]; intros delay k Hle.
  { cbn. split; [by intros ?%elem_of_nil | lia]. }
  cbn [loop]. set (i := (retries - S remaining)%nat).
  assert (Hi : (retries - remaining = S i)%nat) by lia.
  specialize (IH (delay * 2) k ltac:(lia)). rewrite Hi in IH.
  assert (Hstop : retryable (net i) = false ->
    k ∈ [i] <-> (i <= k < retries)%nat /\
      forall j, (i <= j < k)%nat -> retryable (net j) = true).
  { intros Hn. rewrite list_elem_of_singleton. split.
    - intros ->. split; [lia | intros; lia].
    - intros [Hk Hall]. destruct (decide (k = i)) as [|Hne]; [done|].
      rewrite (Hall i) in Hn by lia. done. }
  assert (Hgo : forall tr, retryable (net i) = true ->
    (k ∈ tr <-> (S i <= k < retries)%nat /\
        forall j, (S i <= j < k)%nat -> retryable (net j) = true) ->
    k ∈ i :: tr <-> (i <= k < retries)%nat /\
      forall j, (i <= j < k)%nat -> retryable (net j) = true).
  { intros tr Hr Htr. rewrite elem_of_cons, Htr. split.
    - intros [-> | [Hk Hall]]; [split; [lia | intros; lia] |].
      split; [lia|]. intros j Hj.
      destruct (decide (j = i)) as [-> | ?]; [done | apply Hall; lia].
    - intros [Hk Hall]. destruct (decide (k = i)) as [|Hne]; [by left | right].
      split; [lia | intros; apply Hall; lia]. }
  destruct (net i) as [apiResponse | error] eqn:Hnet; simpl.
  - destruct (ok apiResponse) eqn:Hok; simpl.
    { apply Hstop. cbn. by rewrite Hok. }
    destruct ((status apiResponse =? 503) || (status apiResponse =? 429)) eqn:Hst; simpl.
    + destruct (loop net retries remaining (delay * 2)) as [c tr]. cbn in *.
      apply Hgo; [by rewrite Hok, Hst | done].
    + apply Hstop. cbn. by rewrite Hok, Hst.
  - destruct (i <? retries - 1)%nat eqn:Hlast; simpl.
    + destruct (loop net retries remaining (delay * 2)) as [c tr]. cbn in *.
      by apply Hgo.
    + apply Nat.ltb_ge in Hlast. cbn.
      rewrite elem_of_cons. split.
      * intros [-> | []%elem_of_nil]. split; [lia | intros; lia].
      * intros [Hk _]. left. lia.
Qed.

(** How the loop completes, read off the first outcome that is not
    retryable. *)
Lemma loop_stops remaining : forall delay k r,
  (remaining <= retries)%nat ->
  (retries - remaining <= k < retries)%nat ->
  (forall j, (retries - remaining <= j < k)%nat -> retryable (net j) = true) ->
  net k = Resolved r -> retryable (net k) = false ->
  (loop net retries remaining delay).1 = Return r.
Proof.
  induction remaining as [|remaining IH]; intros delay k r Hle Hk Hall Hnet Hnr; [lia|].
  cbn [loop]. set (i := (retries - S remaining)%nat).
  assert (Hi : (retries - remaining = S i)%nat) by lia.
  destruct (decide (k = i)) as [-> | Hne].
  - rewrite Hnet. rewrite Hnet in Hnr. cbn in Hnr.
    destruct (ok r); [done|]. cbn in Hnr. by rewrite Hnr.
  - assert (Hri : retryable (net i) = true) by (apply Hall; lia).
    specialize (IH (delay * 2) k r ltac:(lia)). rewrite Hi in IH.
    assert (Hrec : (loop net retries remaining (delay * 2)).1 = Return r).
    { apply IH; [lia | intros; apply Hall; lia | done | done]. }
    destruct (net i) as [apiResponse | error]; cbn in Hri.
    + apply andb_true_iff in Hri as [Hok Hst]. apply negb_true_iff in Hok.
      rewrite Hok, Hst. by destruct (loop net retries remaining (delay * 2)).
    + assert ((i <? retries - 1)%nat = true) as -> by (apply Nat.ltb_lt; lia).
      by destruct (loop net retries remaining (delay * 2)).
Qed.

Lemma loop_exhausts remaining : forall delay,
  (0 < remaining <= retries)%nat ->
  (forall j, (retries - remaining <= j < retries)%nat -> retryable (net j) = true) ->
  (loop net retries remaining delay).1 =
    match net (retries - 1)%nat with
    | Rejected e => Throw e
    | Resolved _ => Throw exhausted
    end.
Proof.
  induction remaining as [|remaining IH]; intros delay Hle Hall; [lia|].
  cbn [loop]. set (i := (retries - S remaining)%nat).
  assert (Hi : (retries - remaining = S i)%nat) by lia.
  assert (Hri : retryable (net i) = true) by (apply Hall; lia).
  destruct remaining as [|remaining].
  - replace (retries - 1)%nat with i by lia.
    destruct (net i) as [apiResponse | error]; cbn in Hri.
    + apply andb_true_iff in Hri as [Hok Hst]. apply negb_true_iff in Hok.
      by rewrite Hok, Hst.
    + by assert ((i <? i)%nat = false) as -> by (apply Nat.ltb_ge; lia).
  - specialize (IH (delay * 2) ltac:(lia)). rewrite Hi in IH.
    assert (Hrec := IH ltac:(intros; apply Hall; lia)).
    destruct (net i) as [apiResponse | error]; cbn in Hri.
    + apply andb_true_iff in Hri as [Hok Hst]. apply negb_true_iff in Hok.
      rewrite Hok, Hst. by destruct (loop net retries (S remaining) (delay * 2)).
    + assert ((i <? retries - 1)%nat = true) as -> by (apply Nat.ltb_lt; lia).
      by destruct (loop net retries (S remaining) (delay * 2)).
Qed.

(** Attempt [k] is made after exactly [k] waits. *)
Lemma loop_sleeps_before remaining : forall delay k,
  (remaining <= retries)%nat ->
  k ∈ attempts (loop net retries remaining delay).2 ->
  (k - (retries - remaining) <= length (sleeps (loop net retries remaining delay).2))%nat.
Proof.
  induction remaining as [|remaining IH]; intros delay k Hle.
  { cbn. by intros ?%elem_of_nil. }
  cbn [loop]. set (i := (retries - S remaining)%nat).
  assert (Hi : (retries - remaining = S i)%nat) by lia.
  specialize (IH (delay * 2) k ltac:(lia)). rewrite Hi in IH.
  loop_cases net i.
  all: try (destruct (loop net retries remaining (delay * 2)) as [c tr]; cbn in *;
            rewrite elem_of_cons; intros [-> | Hin]; [lia | apply IH in Hin; lia]).
  all: cbn; rewrite elem_of_cons; intros [-> | []%elem_of_nil]; lia.
Qed.
(** The attempts of a run are numbered in a row, from the iteration the
    loop is entered at, and there are no more of them than iterations. *)
Lemma loop_attempts_seq remaining : forall delay,
  (remaining <= retries)%nat ->
  attempts (loop net retries remaining delay).2
    = seq (retries - remaining) (length (attempts (loop net retries remaining delay).2)) /\
  (length (attempts (loop net retries remaining delay).2) <= remaining)%nat.
Proof.
  induction remaining as [|remaining IH]; intros delay Hle; [done|].
  cbn [loop]. set (i := (retries - S remaining)%nat).
  specialize (IH (delay * 2) ltac:(lia)).
  replace (retries - remaining)%nat with (S i) in IH by lia.
  loop_cases net i.
  all: try (cbn; split; [done | lia]).
  all: destruct (loop net retries remaining (delay * 2)) as [c tr]; cbn in *;
    destruct IH as [IH1 IH2]; split; [by rewrite IH1 at 1 | lia].
Qed.

(** A run that makes an attempt begins with it. *)
Lemma loop_head remaining delay k :
  k ∈ attempts (loop net retries remaining delay).2 ->
  exists t, (loop net retries remaining delay).2 = EvFetch (retries - remaining) :: t.
Proof.
  destruct remaining as [|remaining]; [by intros ?%elem_of_nil|]. intros _.
  cbn [loop]. set (i := (retries - S remaining)%nat).
  loop_cases net i; try (by eexists).
  all: destruct (loop net retries remaining (delay * 2)) as [c tr]; by eexists.
Qed.

(** The wait that comes right before attempt [n]. *)
Lemma loop_retry_wait remaining : forall delay n,
  (remaining <= retries)%nat ->
  (retries - remaining < n)%nat ->
  n ∈ attempts (loop net retries remaining delay).2 ->
  exists pre post,
    (loop net retries remaining delay).2
      = pre ++ EvSleep (delay * 2 ^ (Z.of_nat (n - (retries - remaining)) - 1))
            :: EvFetch n :: post /\
    attempts pre = seq (retries - remaining) (n - (retries - remaining)).
Proof.
  induction remaining as [|remaining IH]; intros delay n Hle Hn.
  { cbn. by intros ?%elem_of_nil. }
  pose proof (loop_head remaining (delay * 2) n) as Hhead.
  specialize (IH (delay * 2) n ltac:(lia)).
  cbn [loop]. set (i := (retries - S remaining)%nat) in *.
  replace (retries - remaining)%nat with (S i) in IH, Hhead by lia.
  assert (Hgo : forall (tr : list Event) l,
    (n ∈ attempts tr -> exists t, tr = EvFetch (S i) :: t) ->
    ((S i < n)%nat -> n ∈ attempts tr ->
     exists pre post,
       tr = pre ++ EvSleep (delay * 2 * 2 ^ (Z.of_nat (n - S i) - 1)) :: EvFetch n :: post /\
       attempts pre = seq (S i) (n - S i)) ->
    n ∈ attempts (EvFetch i :: EvLog l :: EvSleep delay :: tr) ->
    exists pre post,
      EvFetch i :: EvLog l :: EvSleep delay :: tr
        = pre ++ EvSleep (delay * 2 ^ (Z.of_nat (n - i) - 1)) :: EvFetch n :: post /\
      attempts pre = seq i (n - i)).
  { intros tr l Hh Hrec Hin. cbn in Hin. apply elem_of_cons in Hin as [-> | Hin]; [lia|].
    destruct (decide (n = S i)) as [-> | Hne].
    - destruct (Hh Hin) as [t ->]. exists [EvFetch i; EvLog l], t. split.
      + cbn. replace (S i - i)%nat with 1%nat by lia. cbn. by rewrite Z.mul_1_r.
      + replace (S i - i)%nat with 1%nat by lia. done.
    - destruct (Hrec ltac:(lia) Hin) as (pre & post & -> & Hpre).
      exists (EvFetch i :: EvLog l :: EvSleep delay :: pre), post. split.
      + replace (delay * 2 ^ (Z.of_nat (n - i) - 1))
          with (delay * 2 * 2 ^ (Z.of_nat (n - S i) - 1)); [done|].
        replace (Z.of_nat (n - i) - 1) with (Z.succ (Z.of_nat (n - S i) - 1)) by lia.
        rewrite Z.pow_succ_r by lia. ring.
      + change (attempts (EvFetch i :: EvLog l :: EvSleep delay :: pre))
          with (i :: attempts pre).
        rewrite Hpre. replace (n - i)%nat with (S (n - S i)) by lia. done. }
  loop_cases net i.
  all: try (cbn; rewrite elem_of_cons, elem_of_nil; intros [-> | []]; lia).
  all: destruct (loop net retries remaining (delay * 2)) as [c tr]; cbn [snd] in *;
    by apply Hgo.
Qed.

End Shape.

(** ** The schedule of the waits *)

(** C1, as the code has it.  [retries] bounds the attempts, not the
    retries: the attempts of a call are numbered 0, 1, ... in a row and
    there are at most [retries] of them.  The [n]-th retry comes right
    after a wait of [delay * 2^(n-1)], and after the attempts 0 to
    [n-1]; that wait is the [n]-th wait of the call.  With [retries = 3]
    and [delay = 1000], two answers of status 429 followed by a success
    give: attempt, wait of 1000, first retry, wait of 2000, second
    retry, whose response is returned. *)
Theorem backoff_schedule :
  (forall net retries delay,
      attempts (fetchWithBackoff net retries delay).2
        = seq 0 (length (attempts (fetchWithBackoff net retries delay).2)) /\
      (length (attempts (fetchWithBackoff net retries delay).2) <= retries)%nat /\
      forall k, k ∈ attempts (fetchWithBackoff net retries delay).2 -> (k < retries)%nat) /\
  (forall net retries delay n,
      (0 < n)%nat ->
      n ∈ attempts (fetchWithBackoff net retries delay).2 ->
      (exists pre post,
          (fetchWithBackoff net retries delay).2
            = pre ++ EvSleep (delay * 2 ^ (Z.of_nat n - 1)) :: EvFetch n :: post /\
          attempts pre = seq 0 n) /\
      sleeps (fetchWithBackoff net retries delay).2 !! (n - 1)%nat
        = Some (delay * 2 ^ (Z.of_nat n - 1))) /\
  (forall net r0 r1 r2,
      net 0%nat = Resolved r0 -> status r0 = 429 ->
      net 1%nat = Resolved r1 -> status r1 = 429 ->
      net 2%nat = Resolved r2 -> ok r2 = true ->
      fetchWithBackoff net 3 1000 =
        (Return r2,
         [EvFetch 0; EvLog (LogStatusRetry 429 1000 1 3); EvSleep 1000;
          EvFetch 1; EvLog (LogStatusRetry 429 2000 2 3); EvSleep 2000;
          EvFetch 2])).
Proof.
  split; [|split].
  - intros net retries delay. unfold fetchWithBackoff.
    destruct (loop_attempts_seq net retries retries delay ltac:(lia)) as [Hseq Hlen].
    rewrite Nat.sub_diag in Hseq. repeat split; try done.
    intros k Hk. apply loop_attempts in Hk; [lia | done].
  - intros net retries delay n Hn Hin. unfold fetchWithBackoff in *. split.
    + destruct (loop_retry_wait net retries retries delay n ltac:(lia) ltac:(lia) Hin)
        as (pre & post & Htr & Hpre).
      rewrite Nat.sub_diag, Nat.sub_0_r in Htr, Hpre. by exists pre, post.
    + pose proof (loop_sleeps_before net retries retries delay n ltac:(lia) Hin) as Hlen.
      destruct (sleeps (loop net retries retries delay).2 !! (n - 1)%nat) as [d|] eqn:E.
      * apply loop_sleeps in E. rewrite E.
        by replace (Z.of_nat n - 1) with (Z.of_nat (n - 1)%nat) by lia.
      * apply lookup_ge_None in E. lia.
  - intros net r0 r1 r2 H0 S0 H1 S1 H2 Hok2.
    assert (ok r0 = false) as K0 by (unfold ok; rewrite S0; reflexivity).
    assert (ok r1 = false) as K1 by (unfold ok; rewrite S1; reflexivity).
    unfold fetchWithBackoff. cbn.
    rewrite H0, K0, S0. cbn. rewrite H1, K1, S1. cbn. rewrite H2, Hok2. cbn.
    done.
Qed.

Lemma backoff_schedule_witness :
  fetchWithBackoff (scripted [429; 429]) 3 1000 =
    (Return (plain 200),
     [EvFetch 0; EvLog (LogStatusRetry 429 1000 1 3); EvSleep 1000;
      EvFetch 1; EvLog (LogStatusRetry 429 2000 2 3); EvSleep 2000;
      EvFetch 2]) /\
  (exists pre post,
      (fetchWithBackoff (scripted [429; 429]) 3 1000).2
        = pre ++ EvSleep 2000 :: EvFetch 2 :: post /\
      attempts pre = [0; 1]%nat) /\
  (2 < 3)%nat.
Proof.
  destruct backoff_schedule as (Hbound & Hwait & Hrun).
  split; [|split].
  - apply (Hrun (scripted [429; 429]) (plain 429) (plain 429) (plain 200));
      reflexivity.
  - apply (Hwait (scripted [429; 429]) 3%nat 1000 2%nat); [lia|].
    vm_compute. repeat constructor.
  - apply (Hbound (scripted [429; 429]) 3%nat 1000).
    vm_compute. repeat constructor.
Defined.

(** Three answers of status 429 and a success waiting behind them: the
    loop ends after the third attempt, the success is never asked for,
    and the call throws. *)
Lemma backoff_no_fourth_attempt :
  scripted [429; 429; 429] 3%nat = Resolved (plain 200) /\
  fetchWithBackoff (scripted [429; 429; 429]) 3 1000 =
    (Throw exhausted,
     [EvFetch 0; EvLog (LogStatusRetry 429 1000 1 3); EvSleep 1000;
      EvFetch 1; EvLog (LogStatusRetry 429 2000 2 3); EvSleep 2000;
      EvFetch 2; EvLog (LogStatusRetry 429 4000 3 3); EvSleep 4000]) /\
  (fetchWithBackoff (scripted [429; 429; 429]) 3 1000).1 <> Return (plain 200).
Proof. split; [|split]; [reflexivity | reflexivity | discriminate]. Qed.

(** ** Which failures are retried, and how the call ends *)

(** C6, as the code has it.  Attempt [k] is made exactly when [k] is
    below [retries] and every earlier attempt ended in a 429 or 503
    status or in a throw of any kind; the first response of another
    status is returned at once; and when every attempt was retryable
    and the last one threw, the call throws that last error. *)
Theorem backoff_retry_policy (net : nat -> FetchOutcome) (retries : nat) (delay : Z) :
  (forall k,
      k ∈ attempts (fetchWithBackoff net retries delay).2 <->
      (k < retries)%nat /\ forall j, (j < k)%nat -> retryable (net j) = true) /\
  (forall k r,
      (k < retries)%nat ->
      (forall j, (j < k)%nat -> retryable (net j) = true) ->
      net k = Resolved r -> retryable (net k) = false ->
      (fetchWithBackoff net retries delay).1 = Return r) /\
  (forall e,
      (0 < retries)%nat ->
      (forall j, (j < retries)%nat -> retryable (net j) = true) ->
      net (retries - 1)%nat = Rejected e ->
      (fetchWithBackoff net retries delay).1 = Throw e).
Proof.
  unfold fetchWithBackoff. split; [|split].
  - intros k. rewrite loop_attempts by done. rewrite Nat.sub_diag.
    split; intros [Hk Hall]; (split; [lia | intros; apply Hall; lia]).
  - intros k r Hk Hall Hnet Hnr.
    apply (loop_stops net retries retries delay k r); try done; [lia|].
    intros; apply Hall; lia.
  - intros e Hpos Hall Hlast. rewrite loop_exhausts, Hlast; [done | lia |].
    intros; apply Hall; lia.
Qed.

Lemma backoff_retry_policy_witness :
  (fetchWithBackoff (scripted [503; 404]) 3 1000).1 = Return (plain 404) /\
  (fetchWithBackoff (fun _ => Rejected refused) 3 1000).1 = Throw refused /\
  1%nat ∈ attempts (fetchWithBackoff (scripted [503; 404]) 3 1000).2.
Proof.
  split; [|split].
  - apply (proj1 (proj2 (backoff_retry_policy (scripted [503; 404]) 3 1000)) 1%nat);
      [lia | | reflexivity | reflexivity].
    intros j Hj. assert (j = 0%nat) as -> by lia. reflexivity.
  - apply (proj2 (proj2 (backoff_retry_policy (fun _ => Rejected refused) 3 1000)));
      [lia | reflexivity | reflexivity].
  - apply (proj1 (backoff_retry_policy (scripted [503; 404]) 3 1000)).
    split; [lia|]. intros j Hj. assert (j = 0%nat) as -> by lia. reflexivity.
Defined.

(** A refused connection is none of the failures the specification
    calls transient, and it is retried; and when every attempt answers
    503 the caller gets the helper's own error, not the last response. *)
Lemma backoff_retries_any_throw :
  transient_in_spec (Rejected refused) = false /\
  attempts (fetchWithBackoff
              (fun i => if (i =? 0)%nat then Rejected refused else Resolved (plain 200))
              3 1000).2 = [0; 1]%nat /\
  (fetchWithBackoff (fun _ => Resolved (plain 503)) 3 1000).1 = Throw exhausted /\
  (fetchWithBackoff (fun _ => Resolved (plain 503)) 3 1000).1 <> Return (plain 503).
Proof. repeat split; try reflexivity. discriminate. Qed.

End BackoffProps.

(** * Properties of the service worker *)

Module WorkerProps.
Import ServiceWorker Scenarios.

(** ** Lists *)

Lemma filter_none {A} (P : A -> Prop) `{!forall x, Decision (P x)} (l : list A) :
  Forall (fun x => ~ P x) l -> filter P l = [].
Proof. induction 1; [done|]. by rewrite filter_cons_False. Qed.

Lemma filter_all {A} (P : A -> Prop) `{!forall x, Decision (P x)} (l : list A) :
  Forall P l -> filter P l = l.
Proof.
  induction 1 as [|x l Hx _ IH]; [done|].
  rewrite filter_cons_True by done. by rewrite IH.
Qed.

Lemma existsb_false_Forall {A} (f : A -> bool) (l : list A) :
  existsb f l = false <-> Forall (fun x => f x = false) l.
Proof.
  induction l as [|x l IH]; cbn.
  - split; [constructor | done].
  - rewrite orb_false_iff, Forall_cons, IH. tauto.
Qed.

(** ** The cache interface *)

Lemma stored_caches_open n m (caches : CacheStorage) :
  stored n (caches_open m caches) = stored n caches.
Proof.
  unfold stored, caches_open. destruct (caches !! m) eqn:E; [done|].
  destruct (decide (n = m)) as [-> | Hne].
  - by rewrite lookup_insert_eq, E.
  - by rewrite lookup_insert_ne.
Qed.

Lemma caches_open_is_Some m (caches : CacheStorage) :
  is_Some (caches_open m caches !! m).
Proof.
  unfold caches_open. destruct (caches !! m) eqn:E; [by rewrite E|].
  by rewrite lookup_insert_eq.
Qed.

Lemma caches_open_again m (caches : CacheStorage) :
  is_Some (caches !! m) -> caches_open m caches = caches.
Proof. intros [c Hc]. unfold caches_open. by rewrite Hc. Qed.

Lemma cache_match_caches_open m m' request (caches : CacheStorage) :
  cache_match m request (caches_open m' caches) = cache_match m request caches.
Proof. unfold cache_match. by rewrite stored_caches_open. Qed.

Lemma cache_match_Some_GET m request (caches : CacheStorage) r :
  cache_match m request caches = Some r -> method request = "GET".
Proof.
  unfold cache_match.
  destruct (String.eqb_spec (method request) "GET"); [done | discriminate].
Qed.

Lemma storable_inv request response :
  storable request response = true ->
  method request = "GET" /\ http_scheme (url request) = true /\
  status response ≠ 206 /\ vary_star response = false.
Proof.
  unfold storable. rewrite !andb_true_iff, !negb_true_iff.
  intros [[[Hget%String.eqb_eq Hs] H206%Z.eqb_neq] Hv]. done.
Qed.

(** A request matches the pair it is stored in, unless the response
    varies on everything. *)
Lemma matches_cached_refl request response :
  vary_star response = false -> matches_cached request (request, response) = true.
Proof.
  unfold vary_star, matches_cached. intros Hv. cbn [fst snd].
  rewrite String.eqb_refl. cbn [andb]. apply forallb_forall. intros f Hf.
  rewrite bool_decide_eq_true_2 by done. rewrite andb_true_r.
  apply negb_true_iff. destruct (String.eqb_spec f "*") as [-> | Hne]; [|done].
  exfalso. assert (existsb (String.eqb "*") (vary_fields response) = true) as E.
  { apply existsb_exists. exists "*". by rewrite String.eqb_refl. }
  congruence.
Qed.

(** Matching compares the URLs without their fragments, whatever else it
    compares. *)
Lemma matches_cached_key request cached :
  matches_cached request cached = true ->
  strip_fragment (url request) = strip_fragment (url cached.1).
Proof. unfold matches_cached. by intros [H%String.eqb_eq _]%andb_true_iff. Qed.

Lemma matches_cached_vary_free request cached :
  vary_fields cached.2 = [] ->
  matches_cached request cached
    = String.eqb (strip_fragment (url request)) (strip_fragment (url cached.1)).
Proof. unfold matches_cached. intros ->. cbn. by rewrite andb_true_r. Qed.

Lemma stored_alter n m f (caches : CacheStorage) :
  stored n (alter f m caches) = if decide (n = m) then
                                  match caches !! m with
                                  | Some store => f store
                                  | None => []
                                  end
                                else stored n caches.
Proof.
  unfold stored. destruct (decide (n = m)) as [-> | Hne].
  - rewrite lookup_alter_eq. by destruct (caches !! m).
  - by rewrite lookup_alter_ne.
Qed.

Lemma stored_put_other n m request response (caches : CacheStorage) :
  n ≠ m \/ storable request response = false ->
  stored n (cache_put m request response caches) = stored n caches.
Proof.
  unfold cache_put. intros [Hne | ->]; [|done].
  destruct (storable request response); [|done].
  rewrite stored_alter. by rewrite decide_False.
Qed.

Lemma stored_put_same m request response (caches : CacheStorage) :
  storable request response = true -> is_Some (caches !! m) ->
  stored m (cache_put m request response caches)
    = replaced request response (stored m caches).
Proof.
  unfold cache_put. intros -> [store Hs].
  rewrite stored_alter, decide_True by done. unfold stored. by rewrite Hs.
Qed.

(** After a put, the pair put is the one pair the request matches. *)
Lemma filter_matches_replaced request response store :
  vary_star response = false ->
  filter (fun cached => matches_cached request cached = true)
    (replaced request response store) = [(request, response)].
Proof.
  intros Hv. unfold replaced. rewrite filter_app, list_filter_filter.
  rewrite (filter_cons_True _ (request, response)) by by apply matches_cached_refl.
  rewrite filter_nil, filter_none; [done|].
  apply Forall_forall. intros cached _ [H1 H2]. congruence.
Qed.

Lemma cache_match_put_same m request response (caches : CacheStorage) :
  storable request response = true -> is_Some (caches !! m) ->
  cache_match m request (cache_put m request response caches) = Some response.
Proof.
  intros Hst Hm. destruct (storable_inv _ _ Hst) as (Hget & _ & _ & Hv).
  unfold cache_match. rewrite Hget. cbn [String.eqb Ascii.eqb Bool.eqb].
  by rewrite stored_put_same, filter_matches_replaced.
Qed.

(** A put keeps a store free of [Vary] responses and of double keys,
    when the response put has no [Vary] header. *)
Lemma replaced_vary_free request response store :
  vary_fields response = [] -> vary_free store ->
  vary_free (replaced request response store).
Proof.
  intros Hr Hs. unfold vary_free, replaced. apply Forall_app. split.
  - apply Forall_forall. intros cached [_ Hin]%list_elem_of_filter.
    by eapply Forall_forall in Hs.
  - by constructor.
Qed.

Lemma replaced_NoDup request response store :
  vary_free store -> NoDup (store_keys store) ->
  NoDup (store_keys (replaced request response store)).
Proof.
  intros Hfree. unfold replaced, store_keys. rewrite fmap_app.
  induction store as [|cached store IH]; cbn [fmap list_fmap filter list_filter].
  { intros _. cbn. apply NoDup_singleton. }
  apply Forall_cons in Hfree as [Hc Hfree]. intros [Hnotin Hnd]%NoDup_cons.
  specialize (IH Hfree Hnd). destruct (decide _) as [Hm | Hm]; [|done].
  cbn. apply NoDup_cons. split; [|done].
  rewrite elem_of_app. intros [Hin | Hin].
  - apply Hnotin. apply list_elem_of_fmap in Hin as (e & He & [_ Hin]%list_elem_of_filter).
    apply list_elem_of_fmap. by exists e.
  - cbn in Hin. apply list_elem_of_singleton in Hin.
    rewrite matches_cached_vary_free in Hm by done.
    apply String.eqb_neq in Hm. congruence.
Qed.

(** ** [includes] *)

Lemma prefix_refl s : String.prefix s s = true.
Proof.
  induction s as [|a s IH]; [done|]. cbn.
  by destruct (Ascii.ascii_dec a a).
Qed.

Lemma includes_app_r s t : includes (s +:+ t) t = true.
Proof.
  induction s as [|a s IH].
  - change ("" +:+ t) with t. destruct t as [|b t]; [done|].
    cbn [includes]. by rewrite prefix_refl.
  - change (String a s +:+ t) with (String a (s +:+ t)). cbn [includes].
    destruct (String.prefix t (String a (s +:+ t))); [done | exact IH].
Qed.

(** ** Install *)

Lemma cache_addAll_fails m requests net (caches : CacheStorage) request :
  request ∈ requests -> cacheable (net (url request)) = None ->
  cache_addAll m requests net caches = None.
Proof.
  intros Hin Hu. unfold cache_addAll. destruct (forallb _ _); [|done].
  assert (mapM (fun r => cacheable (net (url r))) requests = None) as ->; [|done].
  apply mapM_None, Exists_exists. by exists request.
Qed.

Lemma addAll_reason_fetch requests net request :
  request ∈ requests -> cacheable (net (url request)) = None ->
  addAll_reason requests net = addAll_failed.
Proof.
  intros Hin Hu. unfold addAll_reason. destruct (forallb _ _); [|done].
  assert (mapM (fun r => cacheable (net (url r))) requests = None) as ->; [|done].
  apply mapM_None, Exists_exists. by exists request.
Qed.

(** C5 on the code: when the fetch of one listed asset fails, nothing
    is written to the primary store, the error is logged, and the
    promise handed to [waitUntil] is fulfilled all the same, so the host
    takes the worker as installed. *)
Theorem install_failure_is_swallowed origin net (caches : CacheStorage) asset :
  asset ∈ STATIC_ASSETS ->
  cacheable (net (absolute origin asset)) = None ->
  install_caches (install origin net caches) = caches_open CACHE_VERSION caches /\
  console_error (install origin net caches) = Some addAll_failed /\
  skipWaiting (install origin net caches) = false /\
  waitUntil (install origin net caches) = Fulfilled /\
  after_install (waitUntil (install origin net caches)) = Installed.
Proof.
  intros Hin Hfail. unfold install.
  assert (request_of origin asset ∈ request_of origin <$> STATIC_ASSETS) as Hreq
    by by apply list_elem_of_fmap_2.
  rewrite (cache_addAll_fails _ _ _ _ (request_of origin asset)) by done.
  cbn [install_caches console_error skipWaiting waitUntil].
  by rewrite (addAll_reason_fetch _ _ (request_of origin asset)).
Qed.

Lemma install_failure_is_swallowed_witness :
  after_install (waitUntil (install example_origin offline_page_unreachable ∅)) = Installed /\
  stored CACHE_VERSION
    (install_caches (install example_origin offline_page_unreachable ∅)) = [].
Proof.
  assert ("/offline.html" ∈ STATIC_ASSETS) as Hin
    by (unfold STATIC_ASSETS; rewrite !elem_of_cons; tauto).
  destruct (install_failure_is_swallowed example_origin offline_page_unreachable
              ∅ "/offline.html" Hin eq_refl) as (Hc & _ & _ & _ & Hs).
  split; [exact Hs | by rewrite Hc].
Defined.

(** ** Activate *)

Lemma existsb_eqb_elem_of (n : string) (l : list string) :
  existsb (String.eqb n) l = true <-> n ∈ l.
Proof.
  rewrite existsb_exists, list_elem_of_In. split.
  - by intros (x & Hx & ->%String.eqb_eq).
  - intros Hn. exists n. by rewrite String.eqb_refl.
Qed.

Lemma foldl_delete_stale (l : list string) : forall (acc : CacheStorage) n,
  foldl (fun acc cacheName =>
           if negb (existsb (String.eqb cacheName) currentCaches)
           then delete cacheName acc else acc) acc l !! n
  = if existsb (String.eqb n) currentCaches then acc !! n
    else if bool_decide (n ∈ l) then None else acc !! n.
Proof.
  induction l as [|x l IH]; intros acc n; cbn [foldl].
  { by destruct (existsb _ _). }
  rewrite IH. destruct (existsb (String.eqb n) currentCaches) eqn:En.
  - destruct (existsb (String.eqb x) currentCaches) eqn:Ex; cbn; [done|].
    rewrite lookup_delete_ne; [done|]. intros ->. congruence.
  - destruct (bool_decide_reflect (n ∈ l)) as [Hl | Hl].
    + rewrite bool_decide_eq_true_2; [done | by right].
    + destruct (decide (n = x)) as [-> | Hne].
      * rewrite bool_decide_eq_true_2 by left. rewrite En. cbn.
        by rewrite lookup_delete_eq.
      * rewrite bool_decide_eq_false_2 by (rewrite elem_of_cons; tauto).
        destruct (negb _); [by rewrite lookup_delete_ne | done].
Qed.

Lemma activate_lookup (caches : CacheStorage) n :
  activate caches !! n =
    if existsb (String.eqb n) currentCaches then caches !! n else None.
Proof.
  unfold activate. rewrite foldl_delete_stale.
  destruct (existsb _ _); [done|].
  destruct (bool_decide_reflect (n ∈ caches_keys caches)) as [Hl | Hl]; [done|].
  destruct (caches !! n) as [c|] eqn:E; [|done].
  exfalso. apply Hl. unfold caches_keys.
  apply list_elem_of_fmap. exists (n, c). by rewrite elem_of_map_to_list.
Qed.

(** C7.  After [activate], no store is left whose name is not one of the
    three current names; a current store is the store it was, with all
    it holds; and opening it gives access to exactly that: the same
    pairs, and the same answer to every lookup. *)
Theorem activate_keeps_exactly_current (caches : CacheStorage) :
  (forall cacheName, cacheName ∉ currentCaches -> activate caches !! cacheName = None) /\
  (forall cacheName, cacheName ∈ currentCaches ->
      activate caches !! cacheName = caches !! cacheName) /\
  (forall cacheName, cacheName ∈ currentCaches ->
      stored cacheName (caches_open cacheName (activate caches)) = stored cacheName caches /\
      forall request,
        cache_match cacheName request (caches_open cacheName (activate caches))
          = cache_match cacheName request caches).
Proof.
  split; [|split].
  - intros n Hn. rewrite activate_lookup.
    destruct (existsb _ _) eqn:E; [|done]. by apply existsb_eqb_elem_of in E.
  - intros n Hn. rewrite activate_lookup.
    by apply existsb_eqb_elem_of in Hn as ->.
  - intros n Hn.
    assert (stored n (caches_open n (activate caches)) = stored n caches) as Hs.
    { rewrite stored_caches_open. unfold stored.
      rewrite activate_lookup. by apply existsb_eqb_elem_of in Hn as ->. }
    split; [exact Hs|]. intros request. unfold cache_match. by rewrite Hs.
Qed.

Lemma activate_keeps_exactly_current_witness :
  activate superseded !! "portfolio-v2.0.0" = None /\
  activate superseded !! CACHE_VERSION = Some [(home, page "new")] /\
  cache_match CACHE_VERSION home (caches_open CACHE_VERSION (activate superseded))
    = Some (page "new").
Proof.
  destruct (activate_keeps_exactly_current superseded) as (Hgone & Hkept & Hquery).
  assert (CACHE_VERSION ∈ currentCaches) as Hin
    by (unfold currentCaches; rewrite !elem_of_cons; tauto).
  split; [|split].
  - apply Hgone. unfold currentCaches.
    rewrite !elem_of_cons, elem_of_nil. intros [H | [H | [H | []]]]; discriminate H.
  - by rewrite (Hkept _ Hin).
  - destruct (Hquery _ Hin) as [_ Hmatch]. by rewrite Hmatch.
Defined.

Example activate_superseded :
  dom (activate superseded) = {[CACHE_VERSION; RUNTIME_CACHE; IMAGE_CACHE]}.
Proof. by vm_compute. Qed.

(** ** The fetch listener *)

(** The rules of the listener that are decided before the list of
    static assets is consulted. *)
Lemma fetch_listener_rules origin request :
  (url_origin request ≠ origin -> fetch_listener origin request = NotIntercepted) /\
  (url_origin request = origin -> includes (url request) "/api/" = true ->
     fetch_listener origin request = RespondWith NetworkFirst) /\
  (url_origin request = origin -> includes (url request) "/api/" = false ->
     destination request = "image" ->
     fetch_listener origin request = RespondWith (CacheFirst IMAGE_CACHE)) /\
  (url_origin request = origin -> includes (url request) "/api/" = false ->
     destination request ≠ "image" ->
     fetch_listener origin request =
       if existsb (fun asset => includes (url request) asset) STATIC_ASSETS
       then RespondWith (CacheFirst CACHE_VERSION)
       else RespondWith NetworkFirst).
Proof.
  unfold fetch_listener. repeat split.
  - intros H. by apply String.eqb_neq in H as ->.
  - intros <- ->. by rewrite String.eqb_refl.
  - intros <- -> ->. by rewrite String.eqb_refl.
  - intros <- -> H. rewrite String.eqb_refl. by apply String.eqb_neq in H as ->.
Qed.

(** C3 on the code: the first listed asset is ["/"], and the test is
    [includes], so every URL with a slash in it matches the list.  A
    same-origin request that is no API call is therefore always served
    cache-first, from the image store or else from the primary store,
    and the last rule of the listener is never reached. *)
Theorem default_route_unreachable origin request :
  url_origin request = origin ->
  includes (url request) "/" = true ->
  includes (url request) "/api/" = false ->
  fetch_listener origin request =
    RespondWith (CacheFirst (if String.eqb (destination request) "image"
                             then IMAGE_CACHE else CACHE_VERSION)).
Proof.
  intros <- Hslash Hapi. unfold fetch_listener.
  rewrite String.eqb_refl, Hapi. cbn [negb].
  destruct (String.eqb (destination request) "image"); [done|].
  unfold STATIC_ASSETS. cbn [existsb]. by rewrite Hslash.
Qed.

Lemma default_route_unreachable_witness :
  fetch_listener example_origin about_page = RespondWith (CacheFirst CACHE_VERSION) /\
  "/about.html" ∉ STATIC_ASSETS.
Proof.
  split.
  - apply (default_route_unreachable example_origin about_page); reflexivity.
  - unfold STATIC_ASSETS. rewrite !elem_of_cons, elem_of_nil.
    intros H. repeat (destruct H as [H | H]; [discriminate H|]). exact H.
Defined.

(** The stores the listener hands a request to are the three current
    ones, and it hands over same-origin requests only. *)
Lemma target_store_current origin request n :
  target_store (fetch_listener origin request) = Some n ->
  url_origin request = origin /\ n ∈ currentCaches.
Proof.
  unfold fetch_listener, currentCaches.
  destruct (String.eqb_spec (url_origin request) origin) as [Ho | Ho]; cbn [negb];
    [|discriminate].
  rewrite !elem_of_cons.
  destruct (includes _ _); [intros [= <-]; tauto|].
  destruct (String.eqb _ _); [intros [= <-]; tauto|].
  destruct (existsb _ _); intros [= <-]; tauto.
Qed.

(** ** What one fetch event leaves in the stores *)

Lemma handle_fetch_after origin request net (caches : CacheStorage) :
  (handle_fetch origin request net caches).2 =
    match target_store (fetch_listener origin request) with
    | None => caches
    | Some target =>
        match net with
        | Resolved response =>
            if status response =? 200
            then cache_put target request response (caches_open target caches)
            else caches_open target caches
        | Rejected _ => caches_open target caches
        end
    end.
Proof.
  unfold handle_fetch.
  destruct (fetch_listener origin request) as [|[|cacheName]]; cbn [target_store snd];
    [done | |].
  - unfold networkFirstStrategy. destruct net as [response | error].
    + by destruct (status response =? 200).
    + destruct (cache_match RUNTIME_CACHE request _); [done|].
      destruct (String.eqb (destination request) "document"); [|done].
      by destruct (cache_match RUNTIME_CACHE (offline_request origin) _).
  - unfold cacheFirstStrategy.
    destruct (cache_match cacheName request _); cbn [pending caches_after].
    + unfold refresh. cbn [refresh_cache refresh_request]. by destruct net.
    + destruct net as [response | error]; [|done].
      by destruct (status response =? 200).
Qed.

(** The store [n] after the event is the store before it, or the store
    the event's strategy works on with the answer put into it. *)
Lemma handle_fetch_stored origin request net (caches : CacheStorage) n :
  stored n (handle_fetch origin request net caches).2 = stored n caches \/
  exists response,
    net = Resolved response /\ status response = 200 /\
    storable request response = true /\
    target_store (fetch_listener origin request) = Some n /\
    stored n (handle_fetch origin request net caches).2
      = replaced request response (stored n caches).
Proof.
  rewrite handle_fetch_after.
  destruct (target_store _) as [target|] eqn:Et; [|by left].
  destruct net as [response | error]; [|left; apply stored_caches_open].
  destruct (status response =? 200) eqn:Es; [|left; apply stored_caches_open].
  destruct (storable request response) eqn:Est;
    [|left; rewrite stored_put_other by tauto; apply stored_caches_open].
  destruct (decide (n = target)) as [-> | Hne];
    [|left; rewrite stored_put_other by tauto; apply stored_caches_open].
  right. exists response. apply Z.eqb_eq in Es. repeat split; try done.
  rewrite stored_put_same by (done || apply caches_open_is_Some).
  by rewrite stored_caches_open.
Qed.

Lemma handle_fetch_written origin request response (caches : CacheStorage) n :
  status response = 200 -> storable request response = true ->
  target_store (fetch_listener origin request) = Some n ->
  stored n (handle_fetch origin request (Resolved response) caches).2
    = replaced request response (stored n caches).
Proof.
  intros Hs Hst Ht. rewrite handle_fetch_after, Ht, Hs. cbn [Z.eqb Pos.eqb].
  rewrite stored_put_same by (done || apply caches_open_is_Some).
  by rewrite stored_caches_open.
Qed.

(** ** Cache-first *)

(** C4, as the code has it.  On a hit the cached response is served
    whatever the network does, and nothing is written before the return;
    when the refresh later resolves with status 200 and the host's store
    takes the pair, the response replaces what the request matched, and
    the next request is served the fresh response.  On a miss the
    fetched response is returned whatever its status, and is stored when
    its status is 200 and the host's store takes the pair, and otherwise
    no store changes; when the fetch throws, the 503 response made by
    the strategy is returned. *)
Theorem cache_first_policy request cacheName (caches : CacheStorage) :
  (forall cachedResponse,
      cache_match cacheName request caches = Some cachedResponse ->
      (forall net,
          served (cacheFirstStrategy request cacheName net caches) = cachedResponse /\
          pending (cacheFirstStrategy request cacheName net caches)
            = Some (mkRefresh request cacheName) /\
          forall n,
            stored n (caches_after (cacheFirstStrategy request cacheName net caches))
              = stored n caches) /\
      (forall net fresh net',
          status fresh = 200 -> storable request fresh = true ->
          let refreshed :=
            refresh (mkRefresh request cacheName) (Resolved fresh)
              (caches_after (cacheFirstStrategy request cacheName net caches)) in
          stored cacheName refreshed = replaced request fresh (stored cacheName caches) /\
          cache_match cacheName request refreshed = Some fresh /\
          served (cacheFirstStrategy request cacheName net' refreshed) = fresh)) /\
  (cache_match cacheName request caches = None ->
      (forall response,
          served (cacheFirstStrategy request cacheName (Resolved response) caches)
            = response /\
          pending (cacheFirstStrategy request cacheName (Resolved response) caches)
            = None /\
          (status response = 200 -> storable request response = true ->
           stored cacheName
             (caches_after (cacheFirstStrategy request cacheName (Resolved response) caches))
             = replaced request response (stored cacheName caches) /\
           cache_match cacheName request
             (caches_after (cacheFirstStrategy request cacheName (Resolved response) caches))
             = Some response) /\
          (status response ≠ 200 \/ storable request response = false ->
           forall n,
             stored n
               (caches_after (cacheFirstStrategy request cacheName (Resolved response) caches))
             = stored n caches)) /\
      (forall error,
          served (cacheFirstStrategy request cacheName (Rejected error) caches)
            = offline_content_unavailable /\
          status (served (cacheFirstStrategy request cacheName (Rejected error) caches))
            = 503 /\
          forall n,
            stored n (caches_after
                        (cacheFirstStrategy request cacheName (Rejected error) caches))
              = stored n caches)).
Proof.
  split.
  - intros cachedResponse Hhit.
    assert (Hserve : forall net,
      cacheFirstStrategy request cacheName net caches =
        mkHandled cachedResponse (caches_open cacheName caches)
          ([StOpen cacheName; StMatch cacheName (url request)] ++ [StFetch (url request)])
          (Some (mkRefresh request cacheName))).
    { intros net. unfold cacheFirstStrategy.
      by rewrite cache_match_caches_open, Hhit. }
    split.
    + intros net. rewrite Hserve. cbn. repeat split. intros n. apply stored_caches_open.
    + intros net fresh net' Hfresh Hst refreshed. subst refreshed.
      rewrite Hserve. cbn [caches_after refresh refresh_cache refresh_request].
      rewrite Hfresh. cbn [Z.eqb Pos.eqb].
      assert (cache_match cacheName request
                (cache_put cacheName request fresh (caches_open cacheName caches))
              = Some fresh) as Hmatch.
      { apply cache_match_put_same; [done | apply caches_open_is_Some]. }
      split; [|split; [done|]].
      * rewrite stored_put_same by (done || apply caches_open_is_Some).
        by rewrite stored_caches_open.
      * unfold cacheFirstStrategy. by rewrite cache_match_caches_open, Hmatch.
  - intros Hmiss. split.
    + intros response. unfold cacheFirstStrategy.
      rewrite cache_match_caches_open, Hmiss.
      destruct (status response =? 200) eqn:E; cbn [served pending caches_after].
      * repeat split.
        -- rewrite stored_put_same by (done || apply caches_open_is_Some).
           by rewrite stored_caches_open.
        -- apply cache_match_put_same; [done | apply caches_open_is_Some].
        -- intros [Hs | Hst] n; [apply Z.eqb_eq in E; done|].
           rewrite stored_put_other by tauto. apply stored_caches_open.
      * apply Z.eqb_neq in E. repeat split; try done.
        intros _ n. apply stored_caches_open.
    + intros error. unfold cacheFirstStrategy.
      rewrite cache_match_caches_open, Hmiss. cbn. repeat split.
      intros n. apply stored_caches_open.
Qed.

Lemma cache_first_policy_witness :
  served (cacheFirstStrategy logo IMAGE_CACHE (Rejected addAll_failed) with_logo)
    = page "old logo" /\
  served (cacheFirstStrategy logo IMAGE_CACHE (Rejected addAll_failed)
            (refresh (mkRefresh logo IMAGE_CACHE) (Resolved (page "new logo"))
               (caches_after (cacheFirstStrategy logo IMAGE_CACHE
                                (Resolved (page "new logo")) with_logo))))
    = page "new logo" /\
  cache_match IMAGE_CACHE logo
    (caches_after (cacheFirstStrategy logo IMAGE_CACHE (Resolved (page "logo")) ∅))
    = Some (page "logo") /\
  served (cacheFirstStrategy logo IMAGE_CACHE (Rejected addAll_failed) ∅)
    = offline_content_unavailable.
Proof.
  destruct (cache_first_policy logo IMAGE_CACHE with_logo) as [Hhit _].
  destruct (Hhit (page "old logo") eq_refl) as [Hserved Hfresh].
  destruct (cache_first_policy logo IMAGE_CACHE ∅) as [_ Hmiss].
  destruct (Hmiss eq_refl) as [Hfetched Hfailed].
  split; [|split; [|split]].
  - apply Hserved.
  - apply (Hfresh (Resolved (page "new logo")) (page "new logo")); reflexivity.
  - apply (Hfetched (page "logo")); reflexivity.
  - apply Hfailed.
Defined.

(** A fetch that succeeds with status 201 is returned and not stored;
    the answer to a POST is returned and not stored; a background
    refresh that succeeds with status 204 leaves the stale response; and
    an answer of status 200 with [Vary: *] is returned and not stored,
    the host's store refusing it. *)
Lemma cache_first_skips_other_success :
  let created := mkResponse 201 "Created" [] "made" in
  let h := cacheFirstStrategy logo IMAGE_CACHE (Resolved created) ∅ in
  let post := mkRequest "https://example.com/" example_origin "POST" "document" [] in
  let h' := cacheFirstStrategy post CACHE_VERSION (Resolved (page "posted")) ∅ in
  let empty := mkResponse 204 "No Content" [] "" in
  let h'' := cacheFirstStrategy logo IMAGE_CACHE (Resolved empty) with_logo in
  let h''' := cacheFirstStrategy logo IMAGE_CACHE (Resolved unique_answer) ∅ in
  (ok created = true /\ served h = created /\
   stored IMAGE_CACHE (caches_after h) = []) /\
  (served h' = page "posted" /\ stored CACHE_VERSION (caches_after h') = []) /\
  (ok empty = true /\
   cache_match IMAGE_CACHE logo
     (refresh (mkRefresh logo IMAGE_CACHE) (Resolved empty) (caches_after h''))
     = Some (page "old logo")) /\
  (status unique_answer = 200 /\ served h''' = unique_answer /\
   stored IMAGE_CACHE (caches_after h''') = [] /\
   cache_match IMAGE_CACHE logo (caches_after h''') = None).
Proof. by vm_compute. Qed.

(** ** Network-first *)

(** C10.  Whatever the status of the response the fetch resolves with,
    that response is what the caller gets, and the strategy has only
    opened the store, fetched and possibly put; a cache lookup or a
    response made by the strategy itself means that the fetch threw. *)
Theorem network_first_returns_resolved origin request (caches : CacheStorage) :
  (forall response,
      served (networkFirstStrategy origin request (Resolved response) caches) = response /\
      (steps (networkFirstStrategy origin request (Resolved response) caches)
         = [StOpen RUNTIME_CACHE; StFetch (url request)] \/
       steps (networkFirstStrategy origin request (Resolved response) caches)
         = [StOpen RUNTIME_CACHE; StFetch (url request);
            StPut RUNTIME_CACHE (url request)])) /\
  (forall net step,
      step ∈ steps (networkFirstStrategy origin request net caches) ->
      (exists n k, step = StMatch n k) \/ (exists st, step = StNewResponse st) ->
      exists error, net = Rejected error).
Proof.
  split.
  - intros response. unfold networkFirstStrategy.
    destruct (status response =? 200); cbn; auto.
  - intros [response | error] step Hin Hstep; [|by eexists].
    exfalso. revert Hin. unfold networkFirstStrategy.
    destruct (status response =? 200); cbn;
      rewrite !elem_of_cons, elem_of_nil; intros Hin;
      destruct Hstep as [(n & k & ->) | (st & ->)];
      repeat (destruct Hin as [Hin | Hin]; [discriminate Hin|]); exact Hin.
Qed.

Lemma network_first_returns_resolved_witness :
  served (networkFirstStrategy example_origin about_page (Resolved server_error) ∅)
    = server_error /\
  exists error,
    Rejected addAll_failed = Rejected error.
Proof.
  destruct (network_first_returns_resolved example_origin about_page ∅) as [Hres Hthrow].
  split; [apply Hres|].
  apply (Hthrow (Rejected addAll_failed) (StNewResponse 503)).
  - vm_compute. repeat constructor.
  - right. by eexists.
Defined.

(** C2 on the code: the offline page is looked up in the runtime store.
    With the page in the primary store, where [install] puts it, and not
    in the runtime store, a document request that finds neither network
    nor cached copy gets the 503 response. *)
Theorem offline_page_sought_in_runtime_store origin request error
    (caches : CacheStorage) offlinePage :
  destination request = "document" ->
  cache_match RUNTIME_CACHE request caches = None ->
  cache_match RUNTIME_CACHE (offline_request origin) caches = None ->
  cache_match CACHE_VERSION (offline_request origin) caches = Some offlinePage ->
  served (networkFirstStrategy origin request (Rejected error) caches)
    = offline_no_cached_version.
Proof.
  intros Hdoc Hreq Hrun _. unfold networkFirstStrategy.
  rewrite !cache_match_caches_open, Hreq, Hdoc, Hrun. reflexivity.
Qed.

Lemma offline_page_sought_in_runtime_store_witness :
  fetch_listener example_origin resume = RespondWith NetworkFirst /\
  cache_match CACHE_VERSION (offline_request example_origin)
    (install_caches (install example_origin online ∅))
    = Some (page "https://example.com/offline.html") /\
  served (networkFirstStrategy example_origin resume (Rejected addAll_failed)
            (install_caches (install example_origin online ∅)))
    = offline_no_cached_version.
Proof.
  split; [reflexivity|]. split; [by vm_compute|].
  apply (offline_page_sought_in_runtime_store example_origin resume addAll_failed
           (install_caches (install example_origin online ∅))
           (page "https://example.com/offline.html")); by vm_compute.
Defined.

(** ** What is written, and under which request *)

(** C9, as the code has it.  A response whose status is not 200 is
    never written: neither strategy nor the background refresh changes a
    store for it.  Network-first returns it, and so does cache-first on
    a miss; on a hit cache-first returns the cached response, and the
    response of the network reaches nobody. *)
Theorem only_status_200_is_cached origin request cacheName response
    (caches : CacheStorage) :
  status response ≠ 200 ->
  (cache_match cacheName request caches = None ->
   served (cacheFirstStrategy request cacheName (Resolved response) caches) = response) /\
  (forall cachedResponse,
      cache_match cacheName request caches = Some cachedResponse ->
      served (cacheFirstStrategy request cacheName (Resolved response) caches)
        = cachedResponse) /\
  (forall n,
      stored n (caches_after (cacheFirstStrategy request cacheName (Resolved response) caches))
        = stored n caches) /\
  (forall r, refresh r (Resolved response) caches = caches) /\
  served (networkFirstStrategy origin request (Resolved response) caches) = response /\
  (forall n,
      stored n (caches_after (networkFirstStrategy origin request (Resolved response) caches))
        = stored n caches) /\
  (forall n, stored n (handle_fetch origin request (Resolved response) caches).2
             = stored n caches).
Proof.
  intros Hs. apply Z.eqb_neq in Hs.
  split; [|split; [|split; [|split; [|split; [|split]]]]].
  - unfold cacheFirstStrategy. rewrite Hs, cache_match_caches_open. by intros ->.
  - intros cachedResponse. unfold cacheFirstStrategy.
    rewrite cache_match_caches_open. by intros ->.
  - intros n. unfold cacheFirstStrategy. rewrite Hs.
    destruct (cache_match _ _ _); apply stored_caches_open.
  - intros r. unfold refresh. by rewrite Hs.
  - unfold networkFirstStrategy. by rewrite Hs.
  - intros n. unfold networkFirstStrategy. rewrite Hs. apply stored_caches_open.
  - intros n. rewrite handle_fetch_after, Hs.
    destruct (target_store _); [apply stored_caches_open | done].
Qed.

Lemma only_status_200_is_cached_witness :
  let created := mkResponse 201 "Created" [] "made" in
  served (networkFirstStrategy example_origin about_page (Resolved created) ∅) = created /\
  stored RUNTIME_CACHE
    (caches_after (networkFirstStrategy example_origin about_page (Resolved created) ∅))
    = [].
Proof.
  intros created.
  destruct (only_status_200_is_cached example_origin about_page IMAGE_CACHE created ∅)
    as (_ & _ & _ & _ & Hserved & Hstored & _); [discriminate|].
  split; [exact Hserved|]. by rewrite Hstored.
Defined.

(** On a hit, the answer of the network is not what the caller gets: an
    image in the store is served from it while the server answers 204
    or 404, and the store keeps the old response. *)
Lemma cache_first_hit_drops_network_answer :
  let empty := mkResponse 204 "No Content" [] "" in
  let missing := mkResponse 404 "Not Found" [] "no such image" in
  fetch_listener example_origin logo = RespondWith (CacheFirst IMAGE_CACHE) /\
  (handle_fetch example_origin logo (Resolved empty) with_logo).1
    = Some (page "old logo") /\
  served (cacheFirstStrategy logo IMAGE_CACHE (Resolved missing) with_logo)
    = page "old logo" /\
  page "old logo" ≠ empty /\ page "old logo" ≠ missing /\
  stored IMAGE_CACHE (handle_fetch example_origin logo (Resolved empty) with_logo).2
    = [(logo, page "old logo")].
Proof. by vm_compute. Qed.

(** C8, as the code has it.  A request whose method is not GET leaves
    every store as it was, through the listener, the strategy and the
    background refresh.  When an intercepted request is answered with
    status 200 and the host's store takes the pair, the pair replaces
    every pair the request matched: the store then holds exactly one
    pair that the request matches, the new one.  And as long as no
    response has a [Vary] header, no store comes to hold two pairs
    under one URL. *)
Theorem only_get_is_written origin request net (caches : CacheStorage) :
  (method request ≠ "GET" ->
   forall n, stored n (handle_fetch origin request net caches).2 = stored n caches) /\
  (forall response n,
      net = Resolved response -> status response = 200 ->
      storable request response = true ->
      target_store (fetch_listener origin request) = Some n ->
      stored n (handle_fetch origin request net caches).2
        = replaced request response (stored n caches) /\
      filter (fun cached => matches_cached request cached = true)
        (stored n (handle_fetch origin request net caches).2) = [(request, response)] /\
      cache_match n request (handle_fetch origin request net caches).2 = Some response) /\
  ((forall response, net = Resolved response -> vary_fields response = []) ->
   forall n,
     vary_free (stored n caches) -> NoDup (store_keys (stored n caches)) ->
     vary_free (stored n (handle_fetch origin request net caches).2) /\
     NoDup (store_keys (stored n (handle_fetch origin request net caches).2))).
Proof.
  split; [|split].
  - intros Hm n.
    destruct (handle_fetch_stored origin request net caches n)
      as [H | (response & _ & _ & Hst & _)]; [done|].
    by apply storable_inv in Hst as [Hget _].
  - intros response n -> Hs Hst Ht.
    pose proof (handle_fetch_written origin request response caches n Hs Hst Ht) as Hw.
    destruct (storable_inv _ _ Hst) as (Hget & _ & _ & Hv).
    split; [exact Hw|].
    assert (filter (fun cached => matches_cached request cached = true)
              (stored n (handle_fetch origin request (Resolved response) caches).2)
            = [(request, response)]) as Hone
      by (rewrite Hw; by apply filter_matches_replaced).
    split; [exact Hone|].
    unfold cache_match. rewrite Hget. cbn [String.eqb Ascii.eqb Bool.eqb].
    by rewrite Hone.
  - intros Hvary n Hfree Hnd.
    destruct (handle_fetch_stored origin request net caches n)
      as [-> | (response & Hnet & _ & _ & _ & ->)]; [done|].
    split; [apply replaced_vary_free; auto | by apply replaced_NoDup].
Qed.

Lemma only_get_is_written_witness :
  stored RUNTIME_CACHE
    (handle_fetch example_origin contact_form (Resolved (page "sent")) ∅).2 = [] /\
  cache_match IMAGE_CACHE logo
    (handle_fetch example_origin logo (Resolved (page "new logo")) with_logo).2
    = Some (page "new logo") /\
  NoDup (store_keys
           (stored IMAGE_CACHE
              (handle_fetch example_origin logo (Resolved (page "new logo")) with_logo).2)).
Proof.
  split; [|split].
  - destruct (only_get_is_written example_origin contact_form (Resolved (page "sent")) ∅)
      as [Hpost _].
    rewrite Hpost; [reflexivity | discriminate].
  - destruct (only_get_is_written example_origin logo (Resolved (page "new logo")) with_logo)
      as (_ & Hnewer & _).
    apply (Hnewer (page "new logo") IMAGE_CACHE); reflexivity.
  - destruct (only_get_is_written example_origin logo (Resolved (page "new logo")) with_logo)
      as (_ & _ & Hkeys).
    apply (Hkeys ltac:(by intros response [= <-]) IMAGE_CACHE).
    + vm_compute. repeat constructor.
    + vm_compute. apply NoDup_singleton.
Defined.

(** Two requests for one URL that differ in their [Accept] header, each
    answered with status 200 and [Vary: Accept]: the runtime store then
    holds both responses under that URL, and each request is served its
    own when the network is gone. *)
Lemma one_url_two_stored_responses :
  let json := data_as "application/json" in
  let text := data_as "text/plain" in
  let first := handle_fetch example_origin json (Resolved (negotiated "{}")) ∅ in
  let second := handle_fetch example_origin text (Resolved (negotiated "none")) first.2 in
  url json = url text /\
  stored RUNTIME_CACHE second.2 = [(json, negotiated "{}"); (text, negotiated "none")] /\
  store_keys (stored RUNTIME_CACHE second.2)
    = ["https://example.com/api/portfolio-data"; "https://example.com/api/portfolio-data"] /\
  ~ NoDup (store_keys (stored RUNTIME_CACHE second.2)) /\
  (handle_fetch example_origin json (Rejected addAll_failed) second.2).1
    = Some (negotiated "{}") /\
  (handle_fetch example_origin text (Rejected addAll_failed) second.2).1
    = Some (negotiated "none").
Proof.
  cbv zeta. split; [reflexivity|]. split; [by vm_compute|]. split; [by vm_compute|].
  split; [|split; by vm_compute].
  assert (store_keys (stored RUNTIME_CACHE
            (handle_fetch example_origin (data_as "text/plain")
               (Resolved (negotiated "none"))
               (handle_fetch example_origin (data_as "application/json")
                  (Resolved (negotiated "{}")) ∅).2).2)
          = ["https://example.com/api/portfolio-data";
             "https://example.com/api/portfolio-data"]) as -> by by vm_compute.
  intros [Hnotin _]%NoDup_cons. apply Hnotin. by left.
Qed.

End WorkerProps.

(** * Properties of the input validation *)

Module ValidationProps.
Import Validation.

(** ** [trim] *)

Lemma trimStart_split s :
  exists w, s = w ++ trimStart s /\ Forall (fun c => isWhiteSpace c = true) w.
Proof.
  induction s as [|c s (w & Hs & Hw)]; [by exists []|]. cbn.
  destruct (isWhiteSpace c) eqn:Hc.
  - exists (c :: w). split; [by rewrite Hs at 1 | by constructor].
  - by exists [].
Qed.

Lemma trimStart_clean s : clean_start (trimStart s).
Proof.
  induction s as [|c s IH]; [done|]. cbn. by destruct (isWhiteSpace c) eqn:Hc.
Qed.

Lemma trimStart_id s : clean_start s -> trimStart s = s.
Proof. destruct s as [|c s]; [done|]. cbn. by intros ->. Qed.

Lemma trimStart_skip w s :
  Forall (fun c => isWhiteSpace c = true) w -> trimStart (w ++ s) = trimStart s.
Proof. induction 1 as [|c w Hc _ IH]; [done|]. cbn. by rewrite Hc. Qed.

Lemma trimEnd_split s :
  exists w, s = trimEnd s ++ w /\ Forall (fun c => isWhiteSpace c = true) w /\
            clean_end (trimEnd s).
Proof.
  destruct (trimStart_split (rev s)) as (w & Hs & Hw).
  exists (rev w). repeat split.
  - unfold trimEnd. rewrite <- rev_app_distr, <- Hs. by rewrite rev_involutive.
  - by apply Forall_rev.
  - unfold clean_end, trimEnd. rewrite rev_involutive. apply trimStart_clean.
Qed.

Lemma trimEnd_unique t w :
  clean_end t -> Forall (fun c => isWhiteSpace c = true) w -> trimEnd (t ++ w) = t.
Proof.
  intros Ht Hw. unfold trimEnd. rewrite rev_app_distr, trimStart_skip by by apply Forall_rev.
  rewrite trimStart_id by done. apply rev_involutive.
Qed.

Lemma trimEnd_id s : clean_end s -> trimEnd s = s.
Proof. intros H. rewrite <- (app_nil_r s) at 1. by apply trimEnd_unique. Qed.

Lemma clean_start_app s t : s ≠ [] -> clean_start (s ++ t) <-> clean_start s.
Proof. by destruct s. Qed.

Lemma trimEnd_clean_start s : clean_start s -> clean_start (trimEnd s).
Proof.
  intros Hs. destruct (trimEnd_split s) as (w & Hsplit & _ & _).
  destruct (trimEnd s) as [|c t] eqn:E; [done|].
  rewrite Hsplit in Hs. exact Hs.
Qed.

Lemma trim_clean s : clean_start (trim s) /\ clean_end (trim s).
Proof.
  unfold trim. split.
  - apply trimEnd_clean_start, trimStart_clean.
  - by destruct (trimEnd_split (trimStart s)) as (w & _ & _ & H).
Qed.

Lemma trim_id s : clean_start s -> clean_end s -> trim s = s.
Proof. intros Hs He. unfold trim. by rewrite trimStart_id, trimEnd_id. Qed.

Lemma trim_trim s : trim (trim s) = trim s.
Proof. apply trim_id; apply trim_clean. Qed.

Lemma In_trimStart x s : In x (trimStart s) -> In x s.
Proof.
  destruct (trimStart_split s) as (w & Hs & _). intros H.
  rewrite Hs. apply in_or_app. by right.
Qed.

Lemma In_trim x s : In x (trim s) -> In x s.
Proof.
  unfold trim, trimEnd. intros H%in_rev%In_trimStart%in_rev. by apply In_trimStart.
Qed.

(** ** The chain of replacements *)

Lemma replaceAll_app c r s t :
  replaceAll c r (s ++ t) = replaceAll c r s ++ replaceAll c r t.
Proof. apply flat_map_app. Qed.

Lemma escape_app s t : escape (s ++ t) = escape s ++ escape t.
Proof. unfold escape. by rewrite !replaceAll_app. Qed.

Lemma escape_single c : escape [c] = escape_unit c.
Proof.
  unfold escape_unit.
  destruct (Z.eqb_spec c 60) as [-> | H1]; [done|].
  destruct (Z.eqb_spec c 62) as [-> | H2]; [done|].
  destruct (Z.eqb_spec c 34) as [-> | H3]; [done|].
  destruct (Z.eqb_spec c 39) as [-> | H4]; [done|].
  destruct (Z.eqb_spec c 47) as [-> | H5]; [done|].
  unfold escape, replaceAll. cbn [flat_map app].
  apply Z.eqb_neq in H1, H2, H3, H4, H5.
  rewrite H1. cbn [flat_map app]. rewrite H2. cbn [flat_map app].
  rewrite H3. cbn [flat_map app]. rewrite H4. cbn [flat_map app].
  by rewrite H5.
Qed.

Lemma escape_cons c s : escape (c :: s) = escape_unit c ++ escape s.
Proof. by rewrite <- escape_single, <- escape_app. Qed.

Lemma escape_unit_plain c : special c = false -> escape_unit c = [c].
Proof.
  unfold special, escape_unit. cbn [existsb]. rewrite !orb_false_iff.
  by intros (-> & -> & -> & -> & -> & _).
Qed.

Lemma escape_unit_not_special c x : In x (escape_unit c) -> special x = false.
Proof.
  unfold escape_unit.
  destruct (Z.eqb_spec c 60); [|destruct (Z.eqb_spec c 62);
    [|destruct (Z.eqb_spec c 34); [|destruct (Z.eqb_spec c 39);
      [|destruct (Z.eqb_spec c 47)]]]].
  1-5: cbn; intros H; repeat (destruct H as [<- | H]; [done|]); done.
  intros [<- | []]. unfold special. cbn [existsb].
  rewrite !orb_false_iff. repeat split; by apply Z.eqb_neq.
Qed.

Lemma whitespace_not_special c : isWhiteSpace c = true -> special c = false.
Proof.
  unfold special. cbn [existsb]. intros Hc. rewrite !orb_false_iff.
  repeat split; try done; apply Z.eqb_neq; intros ->; discriminate Hc.
Qed.

Lemma escape_unit_clean c :
  isWhiteSpace c = false ->
  escape_unit c ≠ [] /\ clean_start (escape_unit c) /\ clean_end (escape_unit c).
Proof.
  unfold escape_unit. intros Hc.
  destruct (c =? 60); [done|]. destruct (c =? 62); [done|].
  destruct (c =? 34); [done|]. destruct (c =? 39); [done|].
  by destruct (c =? 47).
Qed.

Lemma escape_plain s : Forall (fun c => special c = false) s -> escape s = s.
Proof.
  induction 1 as [|c s Hc _ IH]; [done|].
  by rewrite escape_cons, escape_unit_plain, IH.
Qed.

Lemma escape_not_special s x : In x (escape s) -> special x = false.
Proof.
  induction s as [|c s IH]; [done|]. rewrite escape_cons.
  intros [H | H]%in_app_or; [by eapply escape_unit_not_special | by apply IH].
Qed.

Lemma escape_whitespace w :
  Forall (fun c => isWhiteSpace c = true) w -> escape w = w.
Proof.
  intros H. apply escape_plain. eapply Forall_impl; [exact H|].
  apply whitespace_not_special.
Qed.

Lemma escape_clean_start s : clean_start s -> clean_start (escape s).
Proof.
  destruct s as [|c s]; [done|]. intros Hc. rewrite escape_cons.
  destruct (escape_unit_clean c Hc) as (Hne & Hstart & _).
  by apply clean_start_app.
Qed.

Lemma escape_rev_clean s : clean_end s -> clean_end (escape s).
Proof.
  unfold clean_end. induction s as [|c s IH] using rev_ind; [done|].
  rewrite rev_app_distr. cbn. intros Hc. rewrite escape_app, escape_single.
  rewrite rev_app_distr. destruct (escape_unit_clean c Hc) as (Hne & _ & Hend).
  apply clean_start_app; [|exact Hend].
  intros Hnil. apply Hne. by rewrite <- (rev_involutive (escape_unit c)), Hnil.
Qed.

(** Trimming after the replacements is trimming before them. *)
Lemma trim_escape s : trim (escape s) = escape (trim s).
Proof.
  destruct (trimStart_split s) as (w1 & Hs1 & Hw1).
  destruct (trimEnd_split (trimStart s)) as (w2 & Hs2 & Hw2 & Hend).
  fold (trim s) in Hend.
  assert (s = w1 ++ trim s ++ w2) as Hs by (unfold trim; by rewrite <- Hs2).
  assert (escape s = w1 ++ escape (trim s) ++ w2) as ->.
  { transitivity (escape (w1 ++ trim s ++ w2)); [by rewrite <- Hs|].
    by rewrite !escape_app, (escape_whitespace w1), (escape_whitespace w2). }
  unfold trim at 1. rewrite trimStart_skip by done.
  destruct (trim_clean s) as [Hstart _].
  destruct (trim s) as [|c t] eqn:E.
  - cbn [escape replaceAll flat_map app].
    rewrite <- (app_nil_r w2), trimStart_skip by done. done.
  - rewrite trimStart_id.
    + apply trimEnd_unique; [|done]. by apply escape_rev_clean.
    + rewrite escape_cons. destruct (escape_unit_clean c Hstart) as (Hne & Hst & _).
      rewrite <- app_assoc. by apply clean_start_app.
Qed.

(** ** [sanitizeInput] *)

(** X1.  Whatever is passed in, the result holds none of [<], [>], the double
    quote, the apostrophe and [/], and has no white space at its ends. *)
Theorem sanitizeInput_output (input : JsValue) :
  Forall (fun c => special c = false) (sanitizeInput input) /\
  clean_start (sanitizeInput input) /\ clean_end (sanitizeInput input).
Proof.
  destruct input as [s | b]; cbn [sanitizeInput]; [|done].
  split; [|apply trim_clean].
  apply Forall_forall. intros x Hx%list_elem_of_In%In_trim. by eapply escape_not_special.
Qed.

(** X2.  Sanitizing twice is sanitizing once: the ampersand is not replaced,
    so the entities put in by the first pass go through the second. *)
Theorem sanitizeInput_idempotent (input : JsValue) :
  sanitizeInput (JString (sanitizeInput input)) = sanitizeInput input.
Proof.
  destruct input as [s | b]; cbn [sanitizeInput]; [|done].
  rewrite escape_plain, trim_trim; [done|].
  apply Forall_forall. intros x Hx%list_elem_of_In%In_trim. by eapply escape_not_special.
Qed.

Lemma length_escape s :
  length (escape s) =
    (length s + 3 * (occurrences 60 s + occurrences 62 s)
     + 5 * (occurrences 34 s + occurrences 39 s + occurrences 47 s))%nat.
Proof.
  induction s as [|c s IH]; [done|].
  rewrite escape_cons, length_app, IH. unfold occurrences, escape_unit.
  rewrite !filter_cons.
  destruct (Z.eqb_spec c 60) as [-> | H1];
    [|destruct (Z.eqb_spec c 62) as [-> | H2];
      [|destruct (Z.eqb_spec c 34) as [-> | H3];
        [|destruct (Z.eqb_spec c 39) as [-> | H4];
          [|destruct (Z.eqb_spec c 47) as [-> | H5]]]]].
  all: repeat case_decide; try done; cbn [length lit fmap list_fmap
         String.list_ascii_of_string]; lia.
Qed.

(** X3.  The length of the result, counted on the trimmed input: every [<]
    and [>] takes four code units, every double quote, apostrophe and
    slash six. *)
Theorem sanitizeInput_length (input : jsstring) :
  length (sanitizeInput (JString input)) =
    (length (trim input)
     + 3 * (occurrences 60 (trim input) + occurrences 62 (trim input))
     + 5 * (occurrences 34 (trim input) + occurrences 39 (trim input)
            + occurrences 47 (trim input)))%nat.
Proof. cbn [sanitizeInput]. by rewrite trim_escape, length_escape. Qed.


(** ** The matcher *)

Lemma nullable_denotes r : nullable r = true <-> denotes r [].
Proof.
  split.
  - induction r as [| |p|r1 IH1 r2 IH2|r1 IH1 r2 IH2|r IH]; cbn; try done.
    + constructor.
    + intros [H1 H2]%andb_true_iff. apply (denotes_Seq r1 r2 [] []); auto.
    + intros [H | H]%orb_true_iff; [apply denotes_Alt_l | apply denotes_Alt_r]; auto.
    + constructor.
  - intros H. remember [] as s eqn:Hs.
    induction H as [|p c Hc|r1 r2 s1 s2 _ IH1 _ IH2|r1 r2 s _ IH|r1 r2 s _ IH| |];
      cbn; try done.
    + apply app_eq_nil in Hs as [-> ->]. by rewrite IH1, IH2.
    + by rewrite IH.
    + rewrite IH by done. apply orb_true_r.
Qed.

Lemma denotes_Seq_inv r1 r2 s :
  denotes (Seq r1 r2) s <-> exists s1 s2, s = s1 ++ s2 /\ denotes r1 s1 /\ denotes r2 s2.
Proof.
  split.
  - inversion 1; subst. by eexists _, _.
  - intros (s1 & s2 & -> & H1 & H2). by constructor.
Qed.

Lemma denotes_Class_inv p s :
  denotes (Class p) s <-> exists c, s = [c] /\ p c = true.
Proof.
  split.
  - inversion 1; subst. by eexists.
  - intros (c & -> & Hc). by constructor.
Qed.

Lemma derive_sound c r : forall s, denotes (derive c r) s -> denotes r (c :: s).
Proof.
  induction r as [| |p|r1 IH1 r2 IH2|r1 IH1 r2 IH2|r IH]; intros s; cbn.
  - inversion 1.
  - inversion 1.
  - destruct (p c) eqn:Hc; inversion 1; subst. by constructor.
  - assert (Hleft : denotes (Seq (derive c r1) r2) s -> denotes (Seq r1 r2) (c :: s)).
    { intros (s1 & s2 & -> & H1 & H2)%denotes_Seq_inv.
      apply (denotes_Seq r1 r2 (c :: s1) s2); auto. }
    destruct (nullable r1) eqn:Hn; [|exact Hleft].
    inversion 1; subst; [by apply Hleft|].
    apply (denotes_Seq r1 r2 [] (c :: s)); [by apply nullable_denotes | auto].
  - inversion 1; subst; [apply denotes_Alt_l | apply denotes_Alt_r]; auto.
  - intros (s1 & s2 & -> & H1 & H2)%denotes_Seq_inv.
    apply (denotes_Star_app r (c :: s1) s2); auto.
Qed.

Lemma derive_complete c r t :
  denotes r t -> forall s, t = c :: s -> denotes (derive c r) s.
Proof.
  induction 1 as [|p c' Hc|r1 r2 s1 s2 H1 IH1 H2 IH2|r1 r2 t H IH|r1 r2 t H IH
                  |r|r s1 s2 H1 IH1 H2 IH2]; intros s Hs; cbn; try done.
  - injection Hs as -> <-. rewrite Hc. constructor.
  - destruct s1 as [|c1 s1].
    + apply nullable_denotes in H1 as ->. apply denotes_Alt_r. by apply IH2.
    + injection Hs as -> <-.
      assert (denotes (Seq (derive c r1) r2) (s1 ++ s2)) by (constructor; auto).
      destruct (nullable r1); [by apply denotes_Alt_l | done].
  - apply denotes_Alt_l. by apply IH.
  - apply denotes_Alt_r. by apply IH.
  - destruct s1 as [|c1 s1]; [by apply IH2|].
    injection Hs as -> <-. constructor; auto.
Qed.

Lemma matches_denotes s : forall r, matches r s = true <-> denotes r s.
Proof.
  induction s as [|c s IH]; intros r; cbn; [apply nullable_denotes|].
  rewrite IH. split; [apply derive_sound | intros H; by eapply derive_complete].
Qed.

Lemma denotes_Star_Class p s :
  denotes (Star (Class p)) s <-> Forall (fun c => p c = true) s.
Proof.
  split.
  - intros H. remember (Star (Class p)) as r eqn:Hr.
    induction H as [| | | | | |r s1 s2 H1 _ _ IH2]; try done.
    injection Hr as ->. apply denotes_Class_inv in H1 as (c & -> & Hc).
    constructor; auto.
  - induction 1 as [|c s Hc _ IH]; [constructor|].
    apply (denotes_Star_app (Class p) [c] s); [by constructor | done].
Qed.

Lemma denotes_Plus_Class p s :
  denotes (Plus (Class p)) s <-> s ≠ [] /\ Forall (fun c => p c = true) s.
Proof.
  unfold Plus. rewrite denotes_Seq_inv. split.
  - intros (s1 & s2 & -> & (c & -> & Hc)%denotes_Class_inv & H2%denotes_Star_Class).
    split; [done | by constructor].
  - intros [Hne H]. destruct H as [|c s Hc H]; [done|].
    exists [c], s. repeat split; [by constructor | by apply denotes_Star_Class].
Qed.

(** ** [isValidEmail] *)

(** X4.  An address is accepted exactly when it reads [local@domain.tld] with
    three parts that are not empty and hold neither white space nor [@];
    the parts may hold any other code unit, dots included. *)
Theorem isValidEmail_spec (email : jsstring) :
  isValidEmail email = true <->
  exists local domain tld,
    email = local ++ [64] ++ domain ++ [46] ++ tld /\
    local ≠ [] /\ domain ≠ [] /\ tld ≠ [] /\
    Forall (fun c => notSpaceAt c = true) local /\
    Forall (fun c => notSpaceAt c = true) domain /\
    Forall (fun c => notSpaceAt c = true) tld.
Proof.
  unfold isValidEmail. rewrite matches_denotes. unfold emailRegex. split.
  - intros (local & s1 & -> & [Hl Hlocal]%denotes_Plus_Class & H1)%denotes_Seq_inv.
    apply denotes_Seq_inv in H1
      as (at_ & s2 & -> & (c1 & -> & <-%Z.eqb_eq)%denotes_Class_inv & H2).
    apply denotes_Seq_inv in H2
      as (domain & s3 & -> & [Hd Hdomain]%denotes_Plus_Class & H3).
    apply denotes_Seq_inv in H3
      as (dot & tld & -> & (c2 & -> & <-%Z.eqb_eq)%denotes_Class_inv
          & [Ht Htld]%denotes_Plus_Class).
    by exists local, domain, tld.
  - intros (local & domain & tld & -> & Hl & Hd & Ht & Hlocal & Hdomain & Htld).
    constructor; [by apply denotes_Plus_Class|].
    constructor; [by constructor|].
    constructor; [by apply denotes_Plus_Class|].
    constructor; [by constructor | by apply denotes_Plus_Class].
Qed.

Lemma isValidEmail_spec_witness :
  isValidEmail (lit "o'neil@mail.example.org") = true.
Proof.
  apply isValidEmail_spec.
  exists (lit "o'neil"), (lit "mail.example"), (lit "org").
  repeat split; try (by vm_compute);
    apply Forall_forall; intros c Hc; vm_compute in Hc;
    repeat (apply elem_of_cons in Hc as [-> | Hc]; [reflexivity|]);
    by apply elem_of_nil in Hc.
Defined.

Lemma occurrences_app c s t :
  occurrences c (s ++ t) = (occurrences c s + occurrences c t)%nat.
Proof. unfold occurrences. by rewrite filter_app, length_app. Qed.

Lemma occurrences_none c s :
  Forall (fun x => x ≠ c) s -> occurrences c s = 0%nat.
Proof.
  unfold occurrences. induction 1 as [|x s Hx _ IH]; [done|].
  rewrite filter_cons. by case_decide.
Qed.

Lemma notSpaceAt_inv c :
  notSpaceAt c = true -> isWhiteSpace c = false /\ c ≠ 64.
Proof.
  unfold notSpaceAt. intros [H1 H2]%andb_true_iff.
  apply negb_true_iff in H1, H2. split; [done | by apply Z.eqb_neq].
Qed.

(** X5.  An accepted address holds exactly one [@] and no white space, does
    not begin with [@], and is at least five code units long. *)
Theorem isValidEmail_shape (email : jsstring) :
  isValidEmail email = true ->
  occurrences 64 email = 1%nat /\
  Forall (fun c => isWhiteSpace c = false) email /\
  head email ≠ Some 64 /\
  (5 <= length email)%nat.
Proof.
  intros (local & domain & tld & -> & Hl & Hd & Ht & Hlocal & Hdomain & Htld)
    %isValidEmail_spec.
  assert (Hat : forall s, Forall (fun c => notSpaceAt c = true) s ->
                          Forall (fun x => x ≠ 64) s).
  { intros s H. eapply Forall_impl; [exact H|]. intros c Hc. by apply notSpaceAt_inv. }
  assert (Hws : forall s, Forall (fun c => notSpaceAt c = true) s ->
                          Forall (fun c => isWhiteSpace c = false) s).
  { intros s H. eapply Forall_impl; [exact H|]. intros c Hc. by apply notSpaceAt_inv. }
  repeat split.
  - rewrite !occurrences_app.
    rewrite (occurrences_none 64 local), (occurrences_none 64 domain),
      (occurrences_none 64 tld) by auto.
    rewrite (occurrences_none 64 [46]) by (by repeat constructor). reflexivity.
  - rewrite !Forall_app. repeat split; auto; by repeat constructor.
  - destruct local as [|c local]; [done|]. cbn. intros [= ->].
    apply Forall_cons in Hlocal as [Hc _]. discriminate Hc.
  - rewrite !length_app. cbn.
    destruct local, domain, tld; cbn; try done; lia.
Qed.

Lemma isValidEmail_shape_witness :
  occurrences 64 (lit "a@b.c.") = 1%nat /\ (5 <= length (lit "a@b.c."))%nat.
Proof.
  destruct (isValidEmail_shape (lit "a@b.c.")) as (H1 & _ & _ & H5);
    [by vm_compute | by split].
Defined.


End ValidationProps.

(** * Further properties of the retry helper *)

Module BackoffCost.
Import Backoff Routes.

Lemma loop_total_wait net retries remaining : forall delay,
  0 <= delay ->
  0 <= total_wait (loop net retries remaining delay).2 <=
    delay * (2 ^ Z.of_nat remaining - 1).
Proof.
  induction remaining as [|remaining IH]; intros delay Hd.
  { cbn. lia. }
  assert (Hpow : 2 ^ Z.of_nat (S remaining) = 2 * 2 ^ Z.of_nat remaining)
    by (rewrite Nat2Z.inj_succ, Z.pow_succ_r; lia).
  assert (Hpos : 0 < 2 ^ Z.of_nat remaining) by (apply Z.pow_pos_nonneg; lia).
  specialize (IH (delay * 2) ltac:(lia)).
  cbn [loop]. set (i := (retries - S remaining)%nat).
  destruct (net i) as [apiResponse | error]; simpl;
    [ destruct (ok apiResponse); simpl;
      [ | destruct ((status apiResponse =? 503) || (status apiResponse =? 429)); simpl ]
    | destruct (i <? retries - 1)%nat; simpl ].
  all: try (unfold total_wait; cbn; nia).
  all: destruct (loop net retries remaining (delay * 2)) as [c tr];
    unfold total_wait in *; cbn in *; nia.
Qed.

Lemma loop_sleeps_count net retries remaining : forall delay,
  (length (sleeps (loop net retries remaining delay).2) <= remaining)%nat.
Proof.
  induction remaining as [|remaining IH]; intros delay; [done|].
  specialize (IH (delay * 2)).
  cbn [loop]. set (i := (retries - S remaining)%nat).
  destruct (net i) as [apiResponse | error]; simpl;
    [ destruct (ok apiResponse); simpl;
      [ | destruct ((status apiResponse =? 503) || (status apiResponse =? 429)); simpl ]
    | destruct (i <? retries - 1)%nat; simpl ].
  all: try (cbn; lia).
  all: destruct (loop net retries remaining (delay * 2)) as [c tr]; cbn in *; lia.
Qed.

(** X10.  A call waits at most [retries] times, and for no more than
    [delay * (2^retries - 1)] in all. *)
Theorem backoff_total_wait net (retries : nat) (delay : Z) :
  0 <= delay ->
  (length (sleeps (fetchWithBackoff net retries delay).2) <= retries)%nat /\
  0 <= total_wait (fetchWithBackoff net retries delay).2 <=
    delay * (2 ^ Z.of_nat retries - 1).
Proof.
  intros Hd. split; [apply loop_sleeps_count | by apply loop_total_wait].
Qed.

Lemma backoff_total_wait_witness :
  total_wait (fetchWithBackoff (scripted [503; 503; 503]) 3 1000).2 <= 7000.
Proof.
  apply (backoff_total_wait (scripted [503; 503; 503]) 3 1000). lia.
Defined.

Lemma loop_completion net retries remaining : forall delay,
  (remaining <= retries)%nat ->
  match (loop net retries remaining delay).1 with
  | Return r =>
      exists k, last (attempts (loop net retries remaining delay).2) = Some k /\
                net k = Resolved r /\ retryable (Resolved r) = false
  | Throw e =>
      e = exhausted \/
      (last (attempts (loop net retries remaining delay).2) = Some (retries - 1)%nat /\
       net (retries - 1)%nat = Rejected e)
  end.
Proof.
  induction remaining as [|remaining IH]; intros delay Hle.
  { cbn. by left. }
  specialize (IH (delay * 2) ltac:(lia)).
  cbn [loop]. set (i := (retries - S remaining)%nat).
  assert (Hstep : forall (c : Completion) (tr : list Event) e1 e2,
    match c with
    | Return r => exists k, last (attempts tr) = Some k /\ net k = Resolved r /\
                            retryable (Resolved r) = false
    | Throw e => e = exhausted \/
                 (last (attempts tr) = Some (retries - 1)%nat /\
                  net (retries - 1)%nat = Rejected e)
    end ->
    match c with
    | Return r => exists k, last (attempts (EvFetch i :: e1 :: e2 :: tr)) = Some k /\
                            net k = Resolved r /\ retryable (Resolved r) = false
    | Throw e => e = exhausted \/
                 (last (attempts (EvFetch i :: e1 :: e2 :: tr)) = Some (retries - 1)%nat /\
                  net (retries - 1)%nat = Rejected e)
    end).
  { intros c tr e1 e2 H.
    assert (Hlast : forall k, last (attempts tr) = Some k ->
                              last (attempts (EvFetch i :: e1 :: e2 :: tr)) = Some k).
    { intros k Hk. change (attempts (EvFetch i :: e1 :: e2 :: tr))
        with (i :: attempts (e1 :: e2 :: tr)).
      assert (attempts (e1 :: e2 :: tr) = attempts [e1; e2] ++ attempts tr) as ->
        by (unfold attempts; by rewrite <- omap_app).
      rewrite app_comm_cons. destruct (attempts tr) as [|a l] using rev_ind; [done|].
      rewrite app_assoc, last_snoc. by rewrite last_snoc in Hk. }
    destruct c as [r | e].
    - destruct H as (k & Hk & Hnet & Hr). exists k. auto.
    - destruct H as [-> | [Hk Hnet]]; [by left | right; auto]. }
  destruct (net i) as [apiResponse | error] eqn:Hnet; simpl.
  - destruct (ok apiResponse) eqn:Hok; simpl.
    { exists i. cbn. by rewrite Hok. }
    destruct ((status apiResponse =? 503) || (status apiResponse =? 429)) eqn:Hst; simpl.
    + destruct (loop net retries remaining (delay * 2)) as [c tr]. cbn [fst snd] in *.
      by apply Hstep.
    + exists i. cbn. by rewrite Hok, Hst.
  - destruct (i <? retries - 1)%nat eqn:Hlast; simpl.
    + destruct (loop net retries remaining (delay * 2)) as [c tr]. cbn [fst snd] in *.
      by apply Hstep.
    + apply Nat.ltb_ge in Hlast. right. cbn.
      replace (retries - 1)%nat with i by lia. done.
Qed.

(** X11.  What a call hands back comes from the last attempt it made: a
    returned response is the answer to that attempt, and its status is
    neither 429 nor 503; a thrown error is the error of attempt
    [retries - 1], or the fixed error of the helper. *)
Theorem backoff_completion_origin net (retries : nat) (delay : Z) :
  match (fetchWithBackoff net retries delay).1 with
  | Return r =>
      (exists k, last (attempts (fetchWithBackoff net retries delay).2) = Some k /\
                 net k = Resolved r) /\
      status r ≠ 429 /\ status r ≠ 503
  | Throw e =>
      e = exhausted \/
      (last (attempts (fetchWithBackoff net retries delay).2) = Some (retries - 1)%nat /\
       net (retries - 1)%nat = Rejected e)
  end.
Proof.
  pose proof (loop_completion net retries retries delay ltac:(lia)) as H.
  unfold fetchWithBackoff. destruct (loop net retries retries delay).1 as [r | e]; [|done].
  destruct H as (k & Hk & Hnet & Hr). split; [by exists k|].
  cbn in Hr. unfold ok in Hr.
  split; intros Hs; rewrite Hs in Hr; discriminate Hr.
Qed.

End BackoffCost.

(** * Properties of the routes *)

Module RoutesProps.
Import Validation Backoff Routes ValidationProps.

(** ** [POST /api/send] *)

Lemma validateMessage_sanitized v maxLength :
  validateMessage (JString (sanitizeInput v)) maxLength = true <->
  (1 <= length (sanitizeInput v))%nat /\ Z.of_nat (length (sanitizeInput v)) <= maxLength.
Proof.
  unfold validateMessage.
  assert (trim (sanitizeInput v) = sanitizeInput v) as Htrim.
  { destruct v as [m | b]; cbn [sanitizeInput]; [apply trim_trim | done]. }
  destruct (sanitizeInput v) as [|c t] eqn:E; cbn [truthy negb].
  - cbn. split; [done | lia].
  - rewrite Htrim. rewrite andb_true_iff, Z.ltb_lt, Z.leb_le. cbn [length]. lia.
Qed.

(** X6.  Mails are handed to the transporter only for a request that passed
    every check, and then they are two: the notice to the configured
    recipients, with the sender's address to reply to, and the automatic
    reply to that address.  The limits on name and message are limits on
    the sanitized texts.  The answer is 200 exactly when both mails were
    accepted. *)
Theorem send_route_mails toLowerCase sendMail (body : SendBody) (env : Env) :
  ((send_route toLowerCase sendMail body env).2 = [] /\
   code (send_route toLowerCase sendMail body env).1 ≠ 200) \/
  (exists email,
      body_email body = JString email /\
      isValidEmail (toLowerCase (trim email)) = true /\
      (2 <= length (sanitizeInput (body_name body)) <= 100)%nat /\
      (1 <= length (sanitizeInput (body_message body)) <= 3000)%nat /\
      is_set (VERIFIED_SENDER_EMAIL env) = true /\
      is_set (ADMIN_RECIPIENT_EMAILS env) = true /\
      mail_to <$> (send_route toLowerCase sendMail body env).2
        = [default [] (ADMIN_RECIPIENT_EMAILS env); toLowerCase (trim email)] /\
      mail_replyTo <$> (send_route toLowerCase sendMail body env).2
        = [Some (toLowerCase (trim email)); None] /\
      mail_content <$> (send_route toLowerCase sendMail body env).2
        = [AdminNotification (sanitizeInput (body_name body)) (toLowerCase (trim email))
             (sanitizeInput (body_message body));
           AutoReply (sanitizeInput (body_name body))] /\
      (code (send_route toLowerCase sendMail body env).1 = 200 <->
       Forall (fun m => sendMail m = true) (send_route toLowerCase sendMail body env).2)).
Proof.
  unfold send_route.
  destruct (negb (truthy (body_name body)) || negb (truthy (body_email body))
            || negb (truthy (body_message body))); [by left|].
  destruct (body_email body) as [email | b]; [|by left].
  destruct ((Z.of_nat (length (sanitizeInput (body_name body))) <? 2)
            || (100 <? Z.of_nat (length (sanitizeInput (body_name body))))) eqn:Hname;
    [by left|].
  destruct (isValidEmail (toLowerCase (trim email))) eqn:Hemail; [|by left].
  destruct (validateMessage (JString (sanitizeInput (body_message body))) 3000) eqn:Hmsg;
    [|by left].
  destruct (is_set (VERIFIED_SENDER_EMAIL env)) eqn:Hsender; [|by left].
  destruct (is_set (ADMIN_RECIPIENT_EMAILS env)) eqn:Hadmin; [|by left].
  cbn [negb orb]. right. exists email.
  apply orb_false_iff in Hname as [H2%Z.ltb_ge H100%Z.ltb_ge].
  apply validateMessage_sanitized in Hmsg as [H1 H3000].
  cbv zeta.
  match goal with |- context [forallb sendMail ?l] => set (mails := l) end.
  assert (Hall : forallb sendMail mails = true <->
                 Forall (fun m => sendMail m = true) mails).
  { rewrite forallb_forall, Forall_forall.
    split; intros H m Hm; apply H; by apply list_elem_of_In. }
  destruct (forallb sendMail mails) eqn:E; cbn [fst snd].
  - repeat split; try lia; try done. intros _. by apply Hall.
  - repeat split; try lia; try done. intros H%Hall. discriminate H.
Qed.

Lemma send_route_mails_witness :
  code (send_route (fun e => e) (fun _ => true) BackendScenarios.inquiry
          BackendScenarios.configured).1 = 200.
Proof.
  destruct (send_route_mails (fun e => e) (fun _ => true) BackendScenarios.inquiry
              BackendScenarios.configured)
    as [[H _] | (email & _ & _ & _ & _ & _ & _ & _ & _ & _ & Hiff)].
  - vm_compute in H. discriminate H.
  - apply Hiff. apply Forall_forall. reflexivity.
Defined.

(** ** [POST /api/chat] *)



(** X8.  A chat request makes at most three calls upstream, numbered
    from 0 in the order they are made, and waits no more than 7000 ms
    between and after them; and it makes no call at all when the
    message is no string or is empty once trimmed, when the API key is
    not set, or when the history is no array. *)
Theorem chat_route_upstream_cost net parse (message : JsValue) (history : History)
    (env : Env) :
  (length (attempts (chat_events (chat_route net parse message history env))) <= 3)%nat /\
  attempts (chat_events (chat_route net parse message history env))
    = seq 0 (length (attempts (chat_events (chat_route net parse message history env)))) /\
  0 <= total_wait (chat_events (chat_route net parse message history env)) <= 7000 /\
  (match message with JString m => trim m = [] | JOther _ => True end \/
   is_set (GEMINI_API_KEY env) = false \/ history = HistOther ->
   chat_events (chat_route net parse message history env) = []).
Proof.
  assert (Hcost : ((length (attempts (fetchWithBackoff net 3 1000).2) <= 3)%nat /\
                   attempts (fetchWithBackoff net 3 1000).2
                     = seq 0 (length (attempts (fetchWithBackoff net 3 1000).2))) /\
                  0 <= total_wait (fetchWithBackoff net 3 1000).2 <= 7000).
  { split.
    - destruct (BackoffProps.loop_attempts_seq net 3 3 1000 ltac:(lia)) as [Hseq Hlen].
      split; [exact Hlen | exact Hseq].
    - apply (BackoffCost.loop_total_wait net 3 3 1000). lia. }
  assert (Hnone : forall r c P,
    (length (attempts (chat_events (mkChatRun r c []))) <= 3)%nat /\
    attempts (chat_events (mkChatRun r c []))
      = seq 0 (length (attempts (chat_events (mkChatRun r c [])))) /\
    0 <= total_wait (chat_events (mkChatRun r c [])) <= 7000 /\
    (P -> chat_events (mkChatRun r c []) = [])).
  { intros r c P. cbn. repeat split; try done. lia. }
  unfold chat_route. destruct message as [m | b]; [|apply Hnone].
  destruct (negb (truthy (JString m)) || (length (trim m) =? 0)%nat) eqn:Hm;
    [apply Hnone|].
  destruct (is_set (GEMINI_API_KEY env)) eqn:Hkey; cbn [negb]; [|apply Hnone].
  destruct (_ ≫= _) as [contents|] eqn:Hcontents; [|apply Hnone].
  destruct (fetchWithBackoff net 3 1000) as [completion events]. cbn [snd] in Hcost.
  cbn [chat_events chat_contents]. destruct Hcost as [[Hlen Hseq] Hw].
  repeat split; try done; try lia.
  intros [Ht | [Hf | ->]]; [| done | discriminate Hcontents].
  apply orb_false_iff in Hm as [_ Hm]. rewrite Ht in Hm. discriminate Hm.
Qed.

Lemma chat_route_upstream_cost_witness :
  chat_events (chat_route (scripted [429]) (fun _ => Some BackendScenarios.answer)
                 (JString (lit "hi")) HistUndefined (mkEnv None None None)) = [] /\
  total_wait (chat_events
                (chat_route (scripted [429]) (fun _ => Some BackendScenarios.answer)
                   (JString (lit "hi")) HistUndefined BackendScenarios.configured))
    <= 7000.
Proof.
  split.
  - apply (chat_route_upstream_cost (scripted [429]) (fun _ => Some BackendScenarios.answer)
             (JString (lit "hi")) HistUndefined (mkEnv None None None)).
    right. by left.
  - apply (chat_route_upstream_cost (scripted [429]) (fun _ => Some BackendScenarios.answer)
             (JString (lit "hi")) HistUndefined BackendScenarios.configured).
Defined.

(** X9.  The handler of the chat route answers 200 only with the text of
    an upstream answer whose status is ok, that is not blocked and whose
    first candidate has a text; every other answer of the handler is
    one of three fixed texts, so no upstream error text leaves it.  (A
    request the rate limiters or the body parser stop does not reach
    the handler.) *)
Theorem chat_route_reply net parse (message : JsValue) (history : History) (env : Env) :
  (exists apiResponse result,
      (fetchWithBackoff net 3 1000).1 = Return apiResponse /\
      ok apiResponse = true /\
      parse (body apiResponse) = Some result /\
      blockReason result = false /\ truthy (candidate_text result) = true /\
      chat_reply (chat_route net parse message history env)
        = mkReply 200 true (FromUpstream (candidate_text result))) \/
  chat_reply (chat_route net parse message history env)
    ∈ [provide_valid_message; cannot_respond; fallbackResponse].
Proof.
  assert (Hfixed : forall r c e, r ∈ [provide_valid_message; cannot_respond; fallbackResponse] ->
    chat_reply (mkChatRun r c e) ∈ [provide_valid_message; cannot_respond; fallbackResponse])
    by done.
  unfold chat_route. destruct message as [m | b];
    [|right; apply Hfixed; rewrite !elem_of_cons; tauto].
  destruct (negb (truthy (JString m)) || (length (trim m) =? 0)%nat);
    [right; apply Hfixed; rewrite !elem_of_cons; tauto|].
  destruct (is_set (GEMINI_API_KEY env)); cbn [negb];
    [|right; apply Hfixed; rewrite !elem_of_cons; tauto].
  destruct (_ ≫= _) as [contents|]; [|right; apply Hfixed; rewrite !elem_of_cons; tauto].
  destruct (fetchWithBackoff net 3 1000) as [[apiResponse | e] events]; cbn [fst chat_reply];
    [|right; rewrite !elem_of_cons; tauto].
  destruct (ok apiResponse) eqn:Hok; cbn [negb]; [|right; rewrite !elem_of_cons; tauto].
  destruct (parse (body apiResponse)) as [result|] eqn:Hparse; [|right; rewrite !elem_of_cons; tauto].
  destruct (blockReason result) eqn:Hblock; [right; rewrite !elem_of_cons; tauto|].
  destruct (truthy (candidate_text result)) eqn:Htext; [|right; rewrite !elem_of_cons; tauto].
  left. by exists apiResponse, result.
Qed.

(** ** The start of the server *)

Lemma startServer_from_spec listen left : forall port p,
  Z.of_nat left = 65536 - port \/ (left = 0%nat /\ 65536 <= port) ->
  startServer_from listen left port = Listening p <->
  0 <= port <= p /\ p < 65536 /\ listen p = ListenOk /\
  forall q, port <= q < p -> listen q = EADDRINUSE.
Proof.
  induction left as [|left IH]; intros port p Hleft.
  { cbn. split; [done|]. intros (H1 & H2 & _). lia. }
  destruct Hleft as [Hleft | [? _]]; [|done].
  cbn [startServer_from]. destruct (Z.ltb_spec port 0) as [Hneg | Hpos].
  { split; [done | lia]. }
  destruct (listen port) eqn:Hport.
  - split.
    + intros [= <-]. repeat split; try lia; try done.
    + intros (H1 & H2 & H3 & H4). destruct (decide (p = port)) as [-> | Hne]; [done|].
      rewrite (H4 port) in Hport by lia. discriminate Hport.
  - rewrite IH by lia. split.
    + intros (H1 & H2 & H3 & H4). repeat split; try lia; try done.
      intros q Hq. destruct (decide (q = port)) as [-> | Hne]; [done | apply H4; lia].
    + intros (H1 & H2 & H3 & H4).
      assert (p ≠ port) by (intros ->; congruence).
      repeat split; try lia; try done. intros; apply H4; lia.
  - split; [done|]. intros (H1 & H2 & H3 & H4).
    destruct (decide (p = port)) as [-> | Hne]; [congruence|].
    rewrite (H4 port) in Hport by lia. discriminate Hport.
Qed.

(** X12.  The server ends up listening on [p] exactly when [p] is the first
    port from the default port on that is not in use, lies below 65536
    and can be bound: every port before it was tried and found in use. *)
Theorem startServer_first_free (listen : Z -> ListenEvent) (parsed : option Z) (p : Z) :
  startServer listen (DEFAULT_PORT parsed) = Listening p <->
  0 < DEFAULT_PORT parsed <= p /\ p < 65536 /\ listen p = ListenOk /\
  forall q, DEFAULT_PORT parsed <= q < p -> listen q = EADDRINUSE.
Proof.
  assert (DEFAULT_PORT parsed ≠ 0) as Hport by (by destruct parsed as [[| |]|]).
  unfold startServer. rewrite startServer_from_spec.
  - split; intros (H1 & H2 & H3 & H4); (split; [lia | done]).
  - destruct (Z.le_gt_cases 65536 (DEFAULT_PORT parsed)); [right | left]; lia.
Qed.

Lemma startServer_first_free_witness :
  startServer BackendScenarios.two_taken (DEFAULT_PORT None) = Listening 4002.
Proof.
  apply startServer_first_free.
  split; [cbn; lia|]. split; [lia|]. split; [reflexivity|].
  intros q Hq. unfold BackendScenarios.two_taken.
  destruct (Z.ltb_spec q 4002); [done | cbn in Hq; lia].
Defined.

End RoutesProps.

(** * Properties of the background sync *)

Module SyncProps.
Import BackgroundSync.

Section Sync.
Variable net : Submission -> FetchOutcome.
Variable delete_ok : Z -> bool.

Lemma sync_loop_posts submissions : forall db,
  posts (sync_loop net delete_ok submissions db).2 = submissions.
Proof.
  induction submissions as [|s rest IH]; intros db; [done|]. cbn [sync_loop].
  destruct (net s) as [response | error];
    [destruct (ok response); [destruct (delete_ok (submission_id s))|]|].
  all: match goal with
       | |- context [sync_loop _ _ _ ?d] =>
           specialize (IH d); destruct (sync_loop net delete_ok rest d) as [db' tr]
       end; cbn in *; by rewrite IH.
Qed.

Lemma sync_loop_store submissions : forall db,
  (sync_loop net delete_ok submissions db).1 =
    filter (fun s => submission_id s ∉
                       submission_id <$> filter (fun x => delivered net delete_ok x = true)
                                           submissions) db.
Proof.
  induction submissions as [|s rest IH]; intros db.
  { cbn. induction db as [|a db IHdb]; [done|].
    rewrite filter_cons, decide_True by apply not_elem_of_nil. by rewrite <- IHdb. }
  cbn [sync_loop]. rewrite filter_cons.
  assert (Hd : delivered net delete_ok s =
               match net s with
               | Resolved response => ok response && delete_ok (submission_id s)
               | Rejected _ => false
               end) by done.
  destruct (net s) as [response | error];
    [destruct (ok response); [destruct (delete_ok (submission_id s))|]|]; cbn [andb] in Hd.
  2-4: rewrite decide_False by (by rewrite Hd);
    specialize (IH db); destruct (sync_loop net delete_ok rest db) as [db' tr];
    exact IH.
  rewrite decide_True by done.
  specialize (IH (removePendingSubmission (submission_id s) db)).
  destruct (sync_loop net delete_ok rest _) as [db' tr]. cbn [fst] in *.
  rewrite IH. unfold removePendingSubmission. rewrite list_filter_filter.
  apply list_filter_iff. intros x. rewrite fmap_cons, not_elem_of_cons. tauto.
Qed.

Lemma filter_agree {A} (P Q : A -> Prop) `{!forall x, Decision (P x), !forall x, Decision (Q x)}
    (l : list A) :
  (forall x, x ∈ l -> P x <-> Q x) -> filter P l = filter Q l.
Proof.
  induction l as [|a l IH]; intros Hag; [done|].
  rewrite !filter_cons.
  rewrite IH by (intros x Hx; apply Hag; by right).
  assert (P a <-> Q a) as Ha by (apply Hag; by left).
  destruct (decide (P a)) as [Hp | Hp], (decide (Q a)) as [Hq | Hq]; tauto.
Qed.

(** X13.  After a sync the store holds exactly the records that were not
    delivered, in their order: a record is removed only when its POST was
    answered with an ok status and its delete succeeded, and nothing is
    added or changed.  A second sync posts exactly those records again. *)
Theorem sync_keeps_undelivered (db : list Submission) :
  NoDup (submission_id <$> db) ->
  (syncFormSubmissions net delete_ok db).1
    = filter (fun s => delivered net delete_ok s = false) db /\
  posts (syncFormSubmissions net delete_ok (syncFormSubmissions net delete_ok db).1).2
    = filter (fun s => delivered net delete_ok s = false) db.
Proof.
  intros Hnodup.
  assert ((syncFormSubmissions net delete_ok db).1
          = filter (fun s => delivered net delete_ok s = false) db) as Hstore.
  { unfold syncFormSubmissions. rewrite sync_loop_store.
    apply filter_agree. intros x Hx. rewrite list_elem_of_fmap. split.
    - intros Hnot. destruct (delivered net delete_ok x) eqn:E; [|done].
      exfalso. apply Hnot. exists x. split; [done|].
      by apply list_elem_of_filter.
    - intros Hx' (y & Hid & [Hy Hin]%list_elem_of_filter).
      assert (x = y) as ->; [|congruence].
      apply list_elem_of_lookup in Hx as [i Hi], Hin as [j Hj].
      assert (i = j) as ->; [|congruence].
      eapply NoDup_lookup; [exact Hnodup | |];
        rewrite list_lookup_fmap; [by rewrite Hi | by rewrite Hj, Hid]. }
  split; [done|]. unfold syncFormSubmissions at 1. by rewrite sync_loop_posts.
Qed.

(** X14.  Every record of the store is posted once in a sync, in the order of
    the store: a failure for one record does not stop the others. *)
Theorem sync_posts_every_record (db : list Submission) :
  posts (syncFormSubmissions net delete_ok db).2 = db.
Proof. apply sync_loop_posts. Qed.

End Sync.

Lemma sync_keeps_undelivered_witness :
  (syncFormSubmissions BackendScenarios.flaky (fun _ => true) BackendScenarios.queue).1
    = [mkSubmission 2 "/api/send" "second"; mkSubmission 3 "/api/send" "third"].
Proof.
  rewrite (proj1 (sync_keeps_undelivered BackendScenarios.flaky (fun _ => true)
                    BackendScenarios.queue ltac:(by vm_compute; repeat constructor;
                      rewrite ?elem_of_cons, ?elem_of_nil; intuition discriminate))).
  reflexivity.
Defined.

End SyncProps.

(** * The worker over its life: install, activate, fetch events *)

Module WorkerLifecycle.
Import ServiceWorker Scenarios WorkerProps.

(** ** [addAll] *)

Lemma batch_put_store operations : forall added base store,
  batch_put operations added (base ++ added) = Some store ->
  store = filter (untouched operations) base ++ added ++ operations.
Proof.
  induction operations as [|[request response] rest IH]; intros added base store.
  { cbn. intros [= <-]. rewrite app_nil_r. f_equal.
    symmetry. apply filter_all, Forall_forall. intros cached _. constructor. }
  cbn [batch_put]. destruct (existsb _ added) eqn:E; [discriminate|].
  apply existsb_false_Forall in E.
  assert (replaced request response (base ++ added)
          = filter (fun cached => matches_cached request cached = false) base
            ++ (added ++ [(request, response)])) as ->.
  { unfold replaced. rewrite filter_app, (filter_all _ added) by done.
    by rewrite <- app_assoc. }
  intros H. apply IH in H as ->.
  rewrite list_filter_filter, <- !app_assoc. cbn. f_equal.
  apply list_filter_iff. intros cached. unfold untouched.
  rewrite Forall_cons. cbn. tauto.
Qed.

(** Whether a batch is refused does not depend on what the store
    holds. *)
Lemma batch_put_refused operations : forall added store store',
  batch_put operations added store = None ->
  batch_put operations added store' = None.
Proof.
  induction operations as [|[request response] rest IH]; intros added store store';
    [discriminate|].
  cbn [batch_put]. destruct (existsb _ added); [done|]. apply IH.
Qed.

Lemma batch_put_accepted operations added store store' :
  is_Some (batch_put operations added store) ->
  is_Some (batch_put operations added store').
Proof.
  intros [s Hs]. destruct (batch_put operations added store') eqn:E; [done|].
  apply (batch_put_refused _ _ _ store) in E. congruence.
Qed.

(** In a batch that is accepted no request matches a pair put before
    it. *)
Lemma batch_put_no_earlier_match pre : forall added store operations request response post s,
  operations = pre ++ (request, response) :: post ->
  batch_put operations added store = Some s ->
  Forall (fun cached => matches_cached request cached = false) (added ++ pre).
Proof.
  induction pre as [|[q r] pre IH]; intros added store operations request response post s ->.
  - cbn [app batch_put]. destruct (existsb _ added) eqn:E; [discriminate|].
    intros _. rewrite app_nil_r. by apply existsb_false_Forall.
  - cbn [app batch_put]. destruct (existsb _ added); [discriminate|].
    intros H. eapply IH in H; [|done]. by rewrite <- app_assoc in H.
Qed.

(** A batch whose requests have different URLs, fragments apart, is
    accepted. *)
Lemma batch_put_distinct operations : forall added store,
  NoDup (store_keys (added ++ operations)) ->
  is_Some (batch_put operations added store).
Proof.
  induction operations as [|[request response] rest IH]; intros added store Hnd; [done|].
  cbn [batch_put].
  destruct (existsb (matches_cached request) added) eqn:E.
  - exfalso. apply existsb_exists in E as (cached & Hin%list_elem_of_In & Hm).
    apply matches_cached_key in Hm. unfold store_keys in Hnd.
    rewrite fmap_app in Hnd. apply NoDup_app in Hnd as (_ & Hdisj & _).
    apply (Hdisj (strip_fragment (url cached.1))).
    + apply list_elem_of_fmap. by exists cached.
    + cbn. rewrite <- Hm. by left.
  - apply IH. by rewrite <- app_assoc.
Qed.

Lemma cache_addAll_stored m requests net (caches populated : CacheStorage) :
  cache_addAll m requests net caches = Some populated ->
  is_Some (caches !! m) ->
  exists responses,
    Forall2 (fun request response => cacheable (net (url request)) = Some response)
      requests responses /\
    is_Some (batch_put (zip requests responses) [] []) /\
    populated = alter (fun _ => filter (untouched (zip requests responses)) (stored m caches)
                                ++ zip requests responses) m caches.
Proof.
  unfold cache_addAll. intros H Hm. destruct (forallb _ _); [|discriminate].
  destruct (mapM _ requests) as [responses|] eqn:E; [|discriminate]. cbn in H.
  destruct (batch_put _ _ _) as [store|] eqn:Eb; [|discriminate]. cbn in H.
  injection H as <-. exists responses. apply mapM_Some in E. split; [done|].
  split; [eapply batch_put_accepted; by rewrite Eb|].
  rewrite <- (app_nil_r (stored m caches)) in Eb.
  by apply batch_put_store in Eb as ->.
Qed.

Lemma cacheable_vary_star o response :
  cacheable o = Some response -> vary_star response = false.
Proof.
  destruct o as [r|]; [|discriminate]. cbn.
  destruct (ok r && negb (status r =? 206) && negb (vary_star r)) eqn:E; [|discriminate].
  intros [= <-]. apply andb_true_iff in E as [_ E]. by apply negb_true_iff.
Qed.

(** A second [addAll] of the same requests on the same network leaves
    the store as the first left it. *)
Lemma batch_put_again (net : string -> FetchOutcome) requests responses base :
  Forall2 (fun request response => cacheable (net (url request)) = Some response)
    requests responses ->
  is_Some (batch_put (zip requests responses) [] []) ->
  batch_put (zip requests responses) []
    (filter (untouched (zip requests responses)) base ++ zip requests responses)
  = Some (filter (untouched (zip requests responses)) base ++ zip requests responses).
Proof.
  intros Hres Hacc. set (operations := zip requests responses) in *.
  destruct (batch_put_accepted operations [] []
              (filter (untouched operations) base ++ operations) Hacc) as [store Hs].
  rewrite Hs. f_equal.
  rewrite <- (app_nil_r (_ ++ operations)) in Hs. apply batch_put_store in Hs as ->.
  cbn [app]. f_equal. rewrite filter_app, list_filter_filter.
  rewrite (filter_none _ operations).
  - rewrite app_nil_r. apply list_filter_iff. tauto.
  - apply Forall_forall. intros [request response] Hin Hun.
    eapply Forall_forall in Hun; [|exact Hin]. cbn in Hun.
    rewrite matches_cached_refl in Hun; [discriminate|].
    subst operations. apply list_elem_of_lookup in Hin as [i Hi].
    apply lookup_zip_with_Some in Hi as (q & r & [= <- <-] & Hq & Hr).
    eapply cacheable_vary_star. exact (Forall2_lookup_lr _ _ _ _ _ _ Hres Hq Hr).
Qed.

Lemma cache_addAll_again m requests net (caches populated : CacheStorage) :
  cache_addAll m requests net caches = Some populated ->
  is_Some (caches !! m) ->
  cache_addAll m requests net populated = Some populated.
Proof.
  intros E Hm.
  destruct (cache_addAll_stored _ _ _ _ _ E Hm) as (responses & Hres & Hacc & ->).
  unfold cache_addAll in E |- *. destruct (forallb _ _); [|discriminate].
  assert (mapM (fun r => cacheable (net (url r))) requests = Some responses) as ->
    by by apply mapM_Some.
  cbn. rewrite stored_alter, decide_True by done. destruct Hm as [store Hstore].
  rewrite Hstore. unfold stored at 2. rewrite Hstore. cbn [default].
  rewrite (batch_put_again net) by done. cbn. f_equal.
  apply map_eq. intros n. destruct (decide (n = m)) as [-> | Hne].
  - rewrite !lookup_alter_eq, Hstore. cbn. unfold stored. by rewrite Hstore.
  - by rewrite !lookup_alter_ne.
Qed.

Lemma cache_addAll_refused_again m requests net (caches caches' : CacheStorage) :
  cache_addAll m requests net caches = None ->
  cache_addAll m requests net caches' = None.
Proof.
  unfold cache_addAll. destruct (forallb _ _); [|done].
  destruct (mapM _ requests) as [responses|]; [|done]. cbn.
  destruct (batch_put _ _ (stored m caches)) eqn:E; [discriminate|].
  by rewrite (batch_put_refused _ _ _ (stored m caches') E).
Qed.

(** What a lookup of one of the requests finds after [addAll]. *)
Lemma cache_addAll_match m requests net (caches populated : CacheStorage) request :
  cache_addAll m requests net caches = Some populated ->
  is_Some (caches !! m) ->
  request ∈ requests ->
  cache_match m request populated = cacheable (net (url request)) /\
  is_Some (cacheable (net (url request))).
Proof.
  intros E Hm Hin. pose proof E as E'.
  destruct (cache_addAll_stored _ _ _ _ _ E Hm) as (responses & Hres & Hacc & ->).
  unfold cache_addAll in E'.
  destruct (forallb _ _) eqn:Eget; [|discriminate]. clear E'.
  assert (method request = "GET") as Hget.
  { rewrite forallb_forall in Eget. apply list_elem_of_In, Eget in Hin.
    by apply andb_true_iff in Hin as [?%String.eqb_eq _]. }
  apply list_elem_of_lookup in Hin as [i Hi].
  destruct (Forall2_lookup_l _ _ _ _ _ Hres Hi) as (response & Hr & Hcacheable).
  rewrite Hcacheable. split; [|done].
  unfold cache_match. rewrite Hget. cbn [String.eqb Ascii.eqb Bool.eqb].
  rewrite stored_alter, decide_True by done. destruct Hm as [store Hstore].
  rewrite Hstore. unfold stored. rewrite Hstore. cbn [default].
  assert ((request, response) ∈ zip requests responses) as Hpair.
  { apply list_elem_of_lookup. exists i. apply lookup_zip_with_Some. by exists request, response. }
  apply list_elem_of_split in Hpair as (pre & post & Hsplit).
  destruct Hacc as [s Hs].
  pose proof (batch_put_no_earlier_match pre [] [] _ request response post s Hsplit Hs) as Hpre.
  cbn [app] in Hpre.
  rewrite filter_app, (filter_none _ (filter _ store)).
  - rewrite Hsplit, filter_app, (filter_none _ pre).
    + cbn [app]. rewrite filter_cons_True; [done|].
      apply matches_cached_refl. by eapply cacheable_vary_star.
    + eapply Forall_impl; [exact Hpre|]. cbn. intros cached H. congruence.
  - apply Forall_forall. intros cached [Hun _]%list_elem_of_filter Hmatch.
    unfold untouched in Hun. rewrite Hsplit in Hun.
    apply Forall_app in Hun as [_ Hun]. apply Forall_cons in Hun as [Hun _].
    cbn in Hun. congruence.
Qed.

(** ** Install *)

Lemma strip_fragment_app o a :
  strip_fragment o = o -> strip_fragment (o +:+ a) = o +:+ strip_fragment a.
Proof.
  induction o as [|c o IH]; [done|].
  change (String c o +:+ a) with (String c (o +:+ a)). cbn [strip_fragment].
  destruct (Ascii.eqb c (Ascii.ascii_of_nat 35)); [discriminate|].
  intros [= H]. by rewrite IH.
Qed.

Lemma append_inj o a b : o +:+ a = o +:+ b -> a = b.
Proof.
  induction o as [|c o IH]; [done|].
  change (String c o +:+ a = String c o +:+ b) with (String c (o +:+ a) = String c (o +:+ b)).
  intros [= H]. by apply IH.
Qed.

Lemma prefix_app p o a : String.prefix p o = true -> String.prefix p (o +:+ a) = true.
Proof.
  revert o. induction p as [|c p IH]; intros o.
  { intros _. destruct o as [|d o]; [by destruct a | done]. }
  destruct o as [|d o]; [discriminate|].
  change (String d o +:+ a) with (String d (o +:+ a)). cbn [String.prefix].
  destruct (Ascii.ascii_dec c d); [apply IH | done].
Qed.

Lemma http_scheme_app o a : http_scheme o = true -> http_scheme (o +:+ a) = true.
Proof.
  unfold http_scheme. intros [H | H]%orb_true_iff; apply orb_true_iff;
    [left | right]; by apply prefix_app.
Qed.

(** With an origin over http or https, as every origin a worker runs at
    is, the listed assets are requests with different URLs, and install
    succeeds when each of them can be fetched. *)
Lemma install_succeeds origin net (caches : CacheStorage) :
  http_scheme origin = true -> strip_fragment origin = origin ->
  (forall asset, asset ∈ STATIC_ASSETS ->
                 is_Some (cacheable (net (absolute origin asset)))) ->
  is_Some (cache_addAll CACHE_VERSION (request_of origin <$> STATIC_ASSETS) net
             (caches_open CACHE_VERSION caches)).
Proof.
  intros Hhttp Hfrag Hall. unfold cache_addAll.
  assert (forallb (fun r => String.eqb (method r) "GET" && http_scheme (url r))
            (request_of origin <$> STATIC_ASSETS) = true) as ->.
  { apply forallb_forall. intros r (asset & -> & _)%list_elem_of_In%list_elem_of_fmap.
    cbn. by apply http_scheme_app. }
  destruct (mapM _ _) as [responses|] eqn:E.
  - apply mapM_Some in E.
    destruct (batch_put_distinct (zip (request_of origin <$> STATIC_ASSETS) responses) []
                (stored CACHE_VERSION (caches_open CACHE_VERSION caches))) as [store Hstore];
      [|unfold mbind, option_bind; by rewrite Hstore].
    cbn [app]. unfold store_keys.
    assert ((fun cached : Request * Response => strip_fragment (url cached.1))
              <$> zip (request_of origin <$> STATIC_ASSETS) responses
            = (fun asset => origin +:+ asset) <$> STATIC_ASSETS) as ->.
    { transitivity ((fun q => strip_fragment (url q))
                      <$> (request_of origin <$> STATIC_ASSETS)).
      - rewrite <- (fst_zip (request_of origin <$> STATIC_ASSETS) responses) at 2
          by (apply Forall2_length in E; lia).
        by rewrite <- list_fmap_compose.
      - rewrite <- list_fmap_compose. apply Forall_fmap_ext_1.
        assert (Forall (fun asset => strip_fragment asset = asset) STATIC_ASSETS) as Hassets
          by (unfold STATIC_ASSETS; repeat constructor).
        eapply Forall_impl; [exact Hassets|]. intros asset Hasset. cbn.
        unfold absolute. rewrite strip_fragment_app by done. by rewrite Hasset. }
    apply NoDup_fmap_2_strong; [intros a b _ _; apply append_inj|].
    apply (bool_decide_unpack (NoDup STATIC_ASSETS)). by vm_compute.
  - exfalso. apply mapM_None, Exists_exists in E as (r & Hr & Hnone).
    apply list_elem_of_fmap in Hr as (asset & -> & Hasset).
    destruct (Hall asset Hasset) as [? ?]. cbn in Hnone. congruence.
Qed.

(** X15.  When every listed asset can be fetched with an ok status
    other than 206 and without [Vary: *], from an origin over http or
    https, install succeeds; every listed asset is then found in the
    primary store with the response fetched for it; the primary store
    holds what it held, less the pairs the assets' requests match, and
    after that the assets with their responses, in the order of the
    list; and no other store is changed. *)
Theorem install_stores_every_asset origin net (caches : CacheStorage) :
  http_scheme origin = true -> strip_fragment origin = origin ->
  (forall asset, asset ∈ STATIC_ASSETS ->
                 is_Some (cacheable (net (absolute origin asset)))) ->
  skipWaiting (install origin net caches) = true /\
  console_error (install origin net caches) = None /\
  (forall asset, asset ∈ STATIC_ASSETS ->
     cache_match CACHE_VERSION (request_of origin asset)
       (install_caches (install origin net caches))
       = cacheable (net (absolute origin asset))) /\
  (exists responses,
     Forall2 (fun asset response => cacheable (net (absolute origin asset)) = Some response)
       STATIC_ASSETS responses /\
     stored CACHE_VERSION (install_caches (install origin net caches))
       = filter (untouched (zip (request_of origin <$> STATIC_ASSETS) responses))
           (stored CACHE_VERSION caches)
         ++ zip (request_of origin <$> STATIC_ASSETS) responses) /\
  (forall n, n ≠ CACHE_VERSION ->
     stored n (install_caches (install origin net caches)) = stored n caches).
Proof.
  intros Hhttp Hfrag Hall.
  destruct (install_succeeds origin net caches Hhttp Hfrag Hall) as [populated E].
  unfold install. rewrite E. cbn [skipWaiting console_error install_caches].
  split; [done|]. split; [done|].
  pose proof (caches_open_is_Some CACHE_VERSION caches) as Hopen.
  split; [|split].
  - intros asset Hin.
    apply (cache_addAll_match _ _ _ _ _ (request_of origin asset) E Hopen).
    by apply list_elem_of_fmap_2.
  - destruct (cache_addAll_stored _ _ _ _ _ E Hopen) as (responses & Hres & _ & ->).
    exists responses. split.
    + by apply Forall2_fmap_l in Hres.
    + rewrite stored_alter, decide_True by done. destruct Hopen as [store Hstore].
      rewrite Hstore. rewrite <- (stored_caches_open CACHE_VERSION CACHE_VERSION caches).
      unfold stored. by rewrite Hstore.
  - intros n Hn.
    destruct (cache_addAll_stored _ _ _ _ _ E Hopen) as (responses & _ & _ & ->).
    rewrite stored_alter, decide_False by done. apply stored_caches_open.
Qed.

Lemma install_stores_every_asset_witness :
  skipWaiting (install example_origin online with_logo) = true /\
  cache_match CACHE_VERSION (offline_request example_origin)
    (install_caches (install example_origin online with_logo))
    = Some (page "https://example.com/offline.html") /\
  stored IMAGE_CACHE (install_caches (install example_origin online with_logo))
    = [(logo, page "old logo")].
Proof.
  destruct (install_stores_every_asset example_origin online with_logo)
    as (Hskip & _ & Hin & _ & Hout); [reflexivity | reflexivity | |].
  { intros asset _. by eexists. }
  split; [exact Hskip|]. split.
  - apply (Hin "/offline.html"). unfold STATIC_ASSETS. rewrite !elem_of_cons. tauto.
  - rewrite Hout; [reflexivity | discriminate].
Defined.

(** X16.  Installing again on the same network changes nothing: the store
    holds each asset once, under its URL. *)
Theorem install_idempotent origin net (caches : CacheStorage) :
  install_caches (install origin net (install_caches (install origin net caches)))
    = install_caches (install origin net caches).
Proof.
  unfold install.
  destruct (cache_addAll CACHE_VERSION _ net (caches_open CACHE_VERSION caches))
    as [populated|] eqn:E; cbn [install_caches].
  - assert (is_Some (populated !! CACHE_VERSION)) as Hsome.
    { destruct (cache_addAll_stored _ _ _ _ _ E (caches_open_is_Some _ _))
        as (responses & _ & _ & ->).
      apply lookup_alter_is_Some, caches_open_is_Some. }
    rewrite (caches_open_again _ _ Hsome).
    by rewrite (cache_addAll_again _ _ _ _ _ E) by apply caches_open_is_Some.
  - rewrite (caches_open_again _ (caches_open CACHE_VERSION caches))
      by apply caches_open_is_Some.
    by rewrite E.
Qed.

(** ** Install, then activate *)

(** X17.  Activation keeps what install stored: after a successful install
    and the activation that follows, every listed asset is still found
    in the primary store; and activating twice is activating once. *)
Theorem activate_keeps_installed_assets origin net (caches : CacheStorage) :
  http_scheme origin = true -> strip_fragment origin = origin ->
  (forall asset, asset ∈ STATIC_ASSETS ->
                 is_Some (cacheable (net (absolute origin asset)))) ->
  (forall asset, asset ∈ STATIC_ASSETS ->
     cache_match CACHE_VERSION (request_of origin asset)
       (activate (install_caches (install origin net caches)))
       = cacheable (net (absolute origin asset))) /\
  activate (activate (install_caches (install origin net caches)))
    = activate (install_caches (install origin net caches)).
Proof.
  intros Hhttp Hfrag Hall. split.
  - intros asset Hin.
    assert (forall c : CacheStorage,
              cache_match CACHE_VERSION (request_of origin asset) (activate c)
              = cache_match CACHE_VERSION (request_of origin asset) c) as ->.
    { intros c. unfold cache_match, stored. rewrite activate_lookup.
      cbn [existsb currentCaches]. by rewrite String.eqb_refl. }
    destruct (install_succeeds origin net caches Hhttp Hfrag Hall) as [populated E].
    unfold install. rewrite E. cbn [install_caches].
    apply (cache_addAll_match _ _ _ _ _ (request_of origin asset) E
             (caches_open_is_Some _ _)).
    by apply list_elem_of_fmap_2.
  - apply map_eq. intros n. rewrite !activate_lookup.
    by destruct (existsb (String.eqb n) currentCaches).
Qed.

Lemma activate_keeps_installed_assets_witness :
  cache_match CACHE_VERSION (request_of example_origin "/index.html")
    (activate (install_caches (install example_origin online superseded)))
    = Some (page "https://example.com/index.html").
Proof.
  destruct (activate_keeps_installed_assets example_origin online superseded)
    as [Hin _]; [reflexivity | reflexivity | |].
  { intros asset _. by eexists. }
  apply (Hin "/index.html"). unfold STATIC_ASSETS. rewrite !elem_of_cons. tauto.
Defined.

(** ** Network-first, online and then offline *)

(** X18.  What network-first stores while online it serves while offline: after
    a request answered with status 200 that the host's store takes (a
    GET over http or https, the answer without [Vary: *]), the same
    request finds that response when the network fails. *)
Theorem network_first_serves_stored_copy origin request response error
    (caches : CacheStorage) :
  storable request response = true -> status response = 200 ->
  served (networkFirstStrategy origin request (Rejected error)
            (caches_after (networkFirstStrategy origin request (Resolved response) caches)))
    = response.
Proof.
  intros Hst Hs. unfold networkFirstStrategy at 2. rewrite Hs.
  cbn [Z.eqb Pos.eqb caches_after].
  unfold networkFirstStrategy. rewrite cache_match_caches_open.
  by rewrite cache_match_put_same by (done || apply caches_open_is_Some).
Qed.

Lemma network_first_serves_stored_copy_witness :
  served (networkFirstStrategy example_origin resume (Rejected addAll_failed)
            (caches_after (networkFirstStrategy example_origin resume
                             (Resolved (page "resume")) ∅)))
    = page "resume".
Proof.
  apply (network_first_serves_stored_copy example_origin resume (page "resume"));
    reflexivity.
Defined.

(** An answer with [Vary: *] is not kept: offline, the request gets the
    503 response. *)
Example network_first_cannot_store_vary_star :
  served (networkFirstStrategy example_origin (data_as "text/plain") (Rejected addAll_failed)
            (caches_after (networkFirstStrategy example_origin (data_as "text/plain")
                             (Resolved unique_answer) ∅)))
    = offline_no_cached_version.
Proof. by vm_compute. Qed.

(** ** One fetch event *)

(** X19.  A fetch event changes at most one store, and only by one put:
    a store that differs after the event is the current store the
    listener chose for the request, the request is a same-origin GET
    answered with status 200, and the store holds what it held, less
    the pairs the request matched, and then the request with its
    answer. *)
Theorem fetch_event_writes_one_entry origin request net (caches : CacheStorage) n :
  stored n (handle_fetch origin request net caches).2 ≠ stored n caches ->
  n ∈ currentCaches /\
  target_store (fetch_listener origin request) = Some n /\
  method request = "GET" /\ url_origin request = origin /\
  (forall m, m ≠ n -> stored m (handle_fetch origin request net caches).2 = stored m caches) /\
  exists response,
    net = Resolved response /\ status response = 200 /\
    stored n (handle_fetch origin request net caches).2
      = filter (fun cached => matches_cached request cached = false) (stored n caches)
        ++ [(request, response)].
Proof.
  intros Hchanged.
  destruct (handle_fetch_stored origin request net caches n)
    as [H | (response & Hnet & Hs & Hst & Ht & Hw)]; [done|].
  destruct (target_store_current _ _ _ Ht) as [Ho Hn].
  apply storable_inv in Hst as [Hget _].
  repeat split; try done.
  - intros m Hm.
    destruct (handle_fetch_stored origin request net caches m)
      as [H | (_ & _ & _ & _ & Ht' & _)]; [done | congruence].
  - by exists response.
Qed.

Lemma fetch_event_writes_one_entry_witness :
  IMAGE_CACHE ∈ currentCaches /\
  stored IMAGE_CACHE
    (handle_fetch example_origin logo (Resolved (page "new logo")) with_logo).2
  = [(logo, page "new logo")].
Proof.
  destruct (fetch_event_writes_one_entry example_origin logo
              (Resolved (page "new logo")) with_logo IMAGE_CACHE)
    as (Hn & _ & _ & _ & _ & response & Hnet & _ & Hw); [by vm_compute|].
  split; [exact Hn|]. injection Hnet as <-. rewrite Hw. reflexivity.
Defined.

End WorkerLifecycle.
